(** * Montana CS workforce planner

    A shallow embedding of the planning core of the Montana roster tool
    (the single-file React application): the half-hour coverage engine,
    the vacation interval store, the demand and requirement engine and
    the CSV export / import pair, followed by the properties established
    for them.

    Conventions of the embedding.
    - A JavaScript string is a [string] of 8-bit characters; every
      character the code produces or inspects (digits, [,], [:], [-],
      line breaks, blanks) is ASCII.
    - Minute-of-day fields and counters are integers ([Z]); the numbers of
      the demand engine are IEEE binary64 values ([float]), with a second,
      exact instance over [Q] used to state what rounding disturbs.
    - A JavaScript object used as a dictionary is a [gmap]; an absent key
      and [undefined] coincide.
    - React state updates are explicit state passing: a handler maps the
      previous state to the next one. *)

From Stdlib Require Import ZArith QArith Qround Lia Ascii String Floats Uint63.
From stdpp Require Import gmap strings list sorting pretty.

Local Open Scope string_scope.
Local Open Scope list_scope.
Local Open Scope Z_scope.

(** ** Constants and types *)

Inductive Weekday :=
  | Saturday | Sunday | Monday | Tuesday | Wednesday | Thursday | Friday.

Definition WEEKDAYS : list Weekday :=
  [Saturday; Sunday; Monday; Tuesday; Wednesday; Thursday; Friday].

#[global] Instance Weekday_eq_dec : EqDecision Weekday.
Proof. solve_decision. Defined.

Definition Weekday_to_nat (d : Weekday) : nat :=
  match d with
  | Saturday => 0 | Sunday => 1 | Monday => 2 | Tuesday => 3
  | Wednesday => 4 | Thursday => 5 | Friday => 6
  end%nat.

Definition Weekday_of_nat (n : nat) : option Weekday := WEEKDAYS !! n.

#[global] Instance Weekday_countable : Countable Weekday.
Proof.
  apply (inj_countable Weekday_to_nat Weekday_of_nat).
  intros []; reflexivity.
Defined.

Record DayBlock := mkDayBlock {
  active : bool;
  startMin : Z;
  endMin : Z;
  breakStartMin : option Z;
  breakMins : option Z;
}.

(** Roster keyed by agent name, then weekday. *)
Abbreviation Roster := (gmap string (gmap Weekday DayBlock)).

Record VacationRange := mkRange { start : string; end_ : string }.

(** Vacations keyed by agent name: a list of inclusive ranges. *)
Abbreviation Vacations := (gmap string (list VacationRange)).

Inductive Level := junior | mid | senior.

Inductive BreakPref := breakNone | break60.

Record Agent := mkAgent {
  name : string;
  country : string;
  remote : bool;
  level : Level;
  fridayAllowed : bool;
  breakPref : BreakPref;
}.

Definition DEFAULT_DAY : DayBlock :=
  {| active := true;
     startMin := 9 * 60;
     endMin := 17 * 60;
     breakStartMin := Some (13 * 60);
     breakMins := Some 60 |}.

(** ** Helpers *)

(** [a < b ? -1 : a > b ? 1 : 0] on strings: the relational operators
    compare strings lexicographically by code unit. *)
Definition compareISO (a b : string) : Z :=
  if String.ltb a b then -1 else if String.ltb b a then 1 else 0.

Definition withinRange (date start_ end' : string) : bool :=
  (compareISO start_ date <=? 0) && (compareISO date end' <=? 0).

(** [vacations[agent] ?? []], then a scan that returns at the first hit. *)
Definition isAgentOnVacation (agent isoDate : string) (vacations : Vacations) : bool :=
  let ranges := default [] (vacations !! agent) in
  existsb (fun r => withinRange isoDate (start r) (end_ r)) ranges.

(** ** Coverage engine *)

(** [blk.breakMins || 0]. *)
Definition breakMinsOr0 (blk : DayBlock) : Z := default 0 (breakMins blk).

(** The body of the bucket loop up to the test: [work - brk] for bucket [k]. *)
Definition netPresence (blk : DayBlock) (k : nat) : Z :=
  let hs := Z.of_nat k * 30 in
  let he := (Z.of_nat k + 1) * 30 in
  let work := Z.max 0 (Z.min (endMin blk) he - Z.max (startMin blk) hs) in
  let brk :=
    match breakStartMin blk with
    | Some bs =>
        if 0 <? breakMinsOr0 blk
        then let be := bs + breakMinsOr0 blk in
             Z.max 0 (Z.min be he - Z.max bs hs)
        else 0
    | None => 0
    end in
  work - brk.

(** [for (let k = 0; k < 48; k++) if (work - brk > 0) cov[k]++]. *)
Definition coverBlock (blk : DayBlock) (cov : list Z) : list Z :=
  foldl (fun cov k => if 0 <? netPresence blk k then alter Z.succ k cov else cov)
        cov (seq 0 48).

(** One iteration of [for (const a of agents)]. *)
Definition coverAgent (roster : Roster) (day : Weekday) (dateISO : string)
    (vacations : Vacations) (cov : list Z) (a : Agent) : list Z :=
  if isAgentOnVacation (name a) dateISO vacations then cov
  else match roster !! name a ≫= (.!! day) with
       | None => cov
       | Some blk => if active blk then coverBlock blk cov else cov
       end.

Definition halfHourCoverage (roster : Roster) (agents : list Agent)
    (day : Weekday) (dateISO : string) (vacations : Vacations) : list Z :=
  foldl (coverAgent roster day dateISO vacations) (replicate 48 0) agents.

(** What a single agent adds to the 48 buckets. *)
Definition contribution (roster : Roster) (a : Agent) (day : Weekday)
    (dateISO : string) (vacations : Vacations) : list Z :=
  halfHourCoverage roster [a] day dateISO vacations.

(** ** The host's [Date] object

    [addDaysISO] goes through [Date]: it reads its argument as a LOCAL
    wall-clock time ([new Date(iso + "T00:00:00")], no zone designator),
    moves the LOCAL day of the month, and prints the result in UTC
    ([toISOString]).  The zone of the host is therefore an input of the
    code; it is the parameter [tz], in minutes east of Greenwich, taken
    as a fixed offset (Riyadh, the site of the tool, is [180] all year).
    A time value is a number of milliseconds since the epoch; [None] is
    the invalid date (time value NaN). *)

Module JSDate.

Definition msPerDay : Z := 86400000.
Definition msPerMinute : Z := 60000.

Definition isLeap (y : Z) : bool :=
  ((y mod 4 =? 0) && negb (y mod 100 =? 0)) || (y mod 400 =? 0).

Definition daysInMonth (y m : Z) : Z :=
  if m =? 2 then (if isLeap y then 29 else 28)
  else if (m =? 4) || (m =? 6) || (m =? 9) || (m =? 11) then 30 else 31.

(** Day number (days since 1970-01-01) of a date of the proleptic
    Gregorian calendar, months counted from 1. *)
Definition daysFromCivil (y m d : Z) : Z :=
  let y' := if m <=? 2 then y - 1 else y in
  let era := y' / 400 in
  let yoe := y' - era * 400 in
  let doy := (153 * (if 2 <? m then m - 3 else m + 9) + 2) / 5 + d - 1 in
  let doe := yoe * 365 + yoe / 4 - yoe / 100 + doy in
  era * 146097 + doe - 719468.

(** The inverse: year, month (from 1) and day of a day number. *)
Definition civilFromDays (z : Z) : Z * Z * Z :=
  let z := z + 719468 in
  let era := z / 146097 in
  let doe := z - era * 146097 in
  let yoe := (doe - doe / 1460 + doe / 36524 - doe / 146096) / 365 in
  let doy := doe - (365 * yoe + yoe / 4 - yoe / 100) in
  let mp := (5 * doy + 2) / 153 in
  let d := doy - (153 * mp + 2) / 5 + 1 in
  let m := if mp <? 10 then mp + 3 else mp - 9 in
  (yoe + era * 400 + (if m <=? 2 then 1 else 0), m, d).

Definition digit (c : ascii) : option Z :=
  let n := Z.of_N (N_of_ascii c) in
  if (48 <=? n) && (n <=? 57) then Some (n - 48) else None.

(** The value of a run of decimal digits, most significant first. *)
Fixpoint digitsValue (acc : Z) (cs : list ascii) : option Z :=
  match cs with
  | [] => Some acc
  | c :: cs' => d ← digit c; digitsValue (acc * 10 + d) cs'
  end.

(** The calendar date denoted by [YYYY-MM-DD]; anything else, or a
    month or day out of range, is not a date. *)
Definition parseYMD (iso : string) : option (Z * Z * Z) :=
  match list_ascii_of_string iso with
  | [y1; y2; y3; y4; "-"%char; m1; m2; "-"%char; d1; d2] =>
      y ← digitsValue 0 [y1; y2; y3; y4];
      m ← digitsValue 0 [m1; m2];
      d ← digitsValue 0 [d1; d2];
      if (1 <=? m) && (m <=? 12) && (1 <=? d) && (d <=? daysInMonth y m)
      then Some (y, m, d) else None
  | _ => None
  end.

(** [TimeClip]: a time value beyond 8.64e15 ms is invalid. *)
Definition timeClip (t : Z) : option Z :=
  if Z.abs t <=? 8640000000000000 then Some t else None.

Section Host.
Variable tz : Z.

Definition localTime (t : Z) : Z := t + tz * msPerMinute.
Definition utc (local : Z) : Z := local - tz * msPerMinute.

(** [new Date(iso + "T00:00:00")]: local midnight of the date. *)
Definition parseLocalMidnight (iso : string) : option Z :=
  '(y, m, d) ← parseYMD iso;
  timeClip (utc (daysFromCivil y m d * msPerDay)).

(** [d.getDate()]: the day of the month in local time. *)
Definition getDate (t : Z) : Z :=
  (civilFromDays (localTime t / msPerDay)).2.

(** [d.setDate(dt)]: same local year, month and time of day, day of
    the month [dt] (carried over month and year ends). *)
Definition setDate (t : Z) (dt : Z) : option Z :=
  let lt := localTime t in
  let '(y, m, _) := civilFromDays (lt / msPerDay) in
  timeClip (utc ((daysFromCivil y m 1 + dt - 1) * msPerDay + lt mod msPerDay)).
End Host.

(** [s.padStart(n, "0")]. *)
Definition padStart0 (n : nat) (s : string) : string :=
  string_of_list_ascii (replicate (n - String.length s) "0"%char) +:+ s.

(** [d.toISOString().slice(0, 10)]: the UTC date, with a four-digit year
    from 0 to 9999 and a signed six-digit year otherwise. *)
Definition toISOStringSlice10 (t : Z) : string :=
  let '(y, m, d) := civilFromDays (t / msPerDay) in
  let year :=
    if (0 <=? y) && (y <=? 9999) then padStart0 4 (pretty y)
    else (if y <? 0 then "-" else "+") +:+ padStart0 6 (pretty (Z.abs y)) in
  String.substring 0 10
    (year +:+ "-" +:+ padStart0 2 (pretty m) +:+ "-" +:+ padStart0 2 (pretty d)).

End JSDate.

(** [addDaysISO]; [None] when [toISOString] throws on an invalid date. *)
Definition addDaysISO (tz : Z) (iso : string) (days : Z) : option string :=
  t ← JSDate.parseLocalMidnight tz iso;
  t' ← JSDate.setDate tz t (JSDate.getDate tz t + days);
  Some (JSDate.toISOStringSlice10 t').

(** ** Vacation interval store *)

(** [ranges.slice().sort((a, b) => compareISO(a.start, b.start))]: the
    sort is stable, so equal starts keep their order; insertion after the
    last element that is not greater computes that arrangement. *)
Fixpoint insertByStart (r : VacationRange) (l : list VacationRange) : list VacationRange :=
  match l with
  | [] => [r]
  | x :: l' =>
      if compareISO (start r) (start x) <? 0 then r :: l
      else x :: insertByStart r l'
  end.

Definition sortByStart (ranges : list VacationRange) : list VacationRange :=
  foldl (fun acc r => insertByStart r acc) [] ranges.

(** The body of the sweep: [out] is the array built so far, its last
    element is the one the code may extend in place. *)
Definition mergeStep (tz : Z) (out : list VacationRange) (r : VacationRange)
    : option (list VacationRange) :=
  match last out with
  | None => Some (out ++ [r])
  | Some lst =>
      next ← addDaysISO tz (end_ lst) 1;
      if compareISO (start r) next <=? 0 then
        if 0 <? compareISO (end_ r) (end_ lst)
        then Some (removelast out ++ [mkRange (start lst) (end_ r)])
        else Some out
      else Some (out ++ [r])
  end.

(** Merge overlapping / adjacent vacation ranges. *)
Definition mergeRanges (tz : Z) (ranges : list VacationRange)
    : option (list VacationRange) :=
  if (length ranges <=? 1)%nat then Some (sortByStart ranges)
  else foldl (fun out r => out ← out; mergeStep tz out r) (Some []) (sortByStart ranges).

(** What a click on [Add vacation range] does. *)
Inductive AddOutcome :=
  | Ignored                       (* silent [return]: a field is empty *)
  | Rejected (alert : string)     (* [alert(...)], then [return] *)
  | Stored (next : Vacations)     (* [setVacations] ran *)
  | Crashed.                      (* the updater threw *)

Definition invalidRangeAlert : string := "End date must be on or after start date.".

Definition addVacationRange (tz : Z) (agentName startDate endDate : string)
    (prev : Vacations) : AddOutcome :=
  if (agentName =? "")%string || (startDate =? "")%string || (endDate =? "")%string then Ignored
  else if 0 <? compareISO startDate endDate then Rejected invalidRangeAlert
  else
    let prevList := default [] (prev !! agentName) in
    match mergeRanges tz (prevList ++ [mkRange startDate endDate]) with
    | Some merged => Stored (<[agentName := merged]> prev)
    | None => Crashed
    end.

(** The store once the handler has run. *)
Definition vacationsAfter (prev : Vacations) (o : AddOutcome) : Vacations :=
  match o with Stored next => next | _ => prev end.

(** [list.splice(idx, 1)] for an index from the rendered list, then the
    empty list is dropped from the store. *)
Definition removeRange (nm : string) (idx : nat) (prev : Vacations) : Vacations :=
  let list := delete idx (default [] (prev !! nm)) in
  if (length list =? 0)%nat then delete nm prev else <[nm := list]> prev.

Definition clearAgent (nm : string) (prev : Vacations) : Vacations := delete nm prev.

(** ** Demand and requirement engine

    The engine is written once over the operations it uses on numbers and
    read at two number systems: [float], the binary64 values the code
    runs on, and [Q], the same expressions without rounding. *)

Class JSNumber (R : Type) := {
  num : Q -> R;                 (* a decimal literal *)
  add : R -> R -> R;
  mul : R -> R -> R;
  div : R -> R -> R;
  Math_max : R -> R -> R;
  Math_ceil : R -> R;
  truthy : R -> bool;           (* neither zero nor NaN *)
}.

Module Binary64.
Local Open Scope float_scope.

(** An integer below 2^53 as a float (exact). *)
Definition ofZ (z : Z) : float :=
  if (z <? 0)%Z then - PrimFloat.of_uint63 (Uint63.of_Z (- z))
  else PrimFloat.of_uint63 (Uint63.of_Z z).

(** A decimal literal denotes the double nearest to it; for a quotient of
    two integers below 2^53 that is their correctly rounded division. *)
Definition literal (q : Q) : float := ofZ (Qnum q) / ofZ (Zpos (Qden q)).

Definition max (a b : float) : float :=
  if PrimFloat.is_nan a || PrimFloat.is_nan b then nan
  else if a <? b then b
  else if b <? a then a
  else if PrimFloat.get_sign a then b else a.

(** [Math.ceil]: the least integer not below the argument, computed on
    the mantissa and exponent of the value. *)
Definition ceil (x : float) : float :=
  match Prim2SF x with
  | S754_finite s m e =>
      if (0 <=? e)%Z then x
      else
        let q := (Zpos m / 2 ^ (- e))%Z in
        if (Zpos m mod 2 ^ (- e) =? 0)%Z then x
        else if s then (if (q =? 0)%Z then neg_zero else - ofZ q)
        else ofZ (q + 1)
  | _ => x
  end.

Definition truthy (x : float) : bool :=
  negb (PrimFloat.is_zero x || PrimFloat.is_nan x).

(** The rational a finite float stands for (0 for the others). *)
Definition toQ (x : float) : Q :=
  match Prim2SF x with
  | S754_finite s m e =>
      let v := if (0 <=? e)%Z then inject_Z (Zpos m * 2 ^ e)
               else Qmake (Zpos m) (Z.to_pos (2 ^ (- e))) in
      if s then Qopp v else v
  | _ => 0%Q
  end.
End Binary64.

#[global] Instance float_JSNumber : JSNumber float := {|
  num := Binary64.literal;
  add := PrimFloat.add;
  mul := PrimFloat.mul;
  div := PrimFloat.div;
  Math_max := Binary64.max;
  Math_ceil := Binary64.ceil;
  truthy := Binary64.truthy;
|}.

#[global] Instance Q_JSNumber : JSNumber Q := {|
  num := fun q => q;
  add := Qplus;
  mul := Qmult;
  div := Qdiv;
  Math_max := fun a b => if Qle_bool a b then b else a;
  Math_ceil := fun a => inject_Z (Qceiling a);
  truthy := fun a => negb (Qeq_bool a 0);
|}.

Section Demand.
Context {R : Type} `{JSNumber R}.

(** Montana hourly load distribution (24h). *)
Definition HOURLY_LOAD_PCT_DEFAULT : list R :=
  num <$> [ 3.0; 1.5; 1.0; 0.8; 0.8; 0.9; 1.2; 2.0;
            3.5; 4.0; 5.0; 6.0; 6.5; 6.8; 7.0; 7.2;
            7.0; 6.5; 6.0; 5.0; 4.0; 3.0; 2.0; 1.5 ]%Q.

Definition MONTANA_DAILY_AVG : R := num 650.

(** The forecast state of the application. *)
Record Forecast := mkForecast {
  hourlyPctByDay : gmap Weekday (list R);
  dailyAvg : gmap Weekday R;
  ahtMin : R;
  occupancy : R;
  serviceBuffer : R;
}.

Definition sumOf (l : list R) : R := foldl add (num 0) l.

(** Split each hour into two half-hours. *)
Definition loadPct48 (f : Forecast) (selectedDay : Weekday) : list R :=
  let arr := default HOURLY_LOAD_PCT_DEFAULT (hourlyPctByDay f !! selectedDay) in
  arr ≫= (fun v => [div v (num 2); div v (num 2)]).

Definition demand48 (f : Forecast) (selectedDay : Weekday) : list R :=
  let l := loadPct48 f selectedDay in
  let sum := if truthy (sumOf l) then sumOf l else num 1 in
  let basePerDay := default MONTANA_DAILY_AVG (dailyAvg f !! selectedDay) in
  (fun p => mul basePerDay (div p sum)) <$> l.

Definition requirement (f : Forecast) (v30 : R) : R :=
  add (Math_ceil (div (mul v30 (ahtMin f))
                      (Math_max (num 0.1) (mul (num 30) (occupancy f)))))
      (serviceBuffer f).

Definition required48 (f : Forecast) (selectedDay : Weekday) : list R :=
  requirement f <$> demand48 f selectedDay.
End Demand.

Arguments Forecast R : clear implicits.

(** ** Strings of the host language *)

Module JSString.

Definition LF : ascii := "010"%char.
Definition CR : ascii := "013"%char.

(** White space as [trim] and [parseInt] see it, among 8-bit characters:
    tab, line feed, vertical tab, form feed, carriage return, space and
    the no-break space. *)
Definition isSpace (c : ascii) : bool :=
  let n := N_of_ascii c in
  ((9 <=? n) && (n <=? 13) || (n =? 32) || (n =? 160))%N.

Fixpoint trimStart (s : string) : string :=
  match s with
  | String c r => if isSpace c then trimStart r else s
  | EmptyString => s
  end.

Definition trimEnd (s : string) : string :=
  String.rev (trimStart (String.rev s)).

Definition trim (s : string) : string := trimEnd (trimStart s).

(** Adds a character in front of the first piece of a split. *)
Definition consFirst (c : ascii) (pieces : list string) : list string :=
  match pieces with
  | p :: ps => String c p :: ps
  | [] => [String c EmptyString]
  end.

(** [s.split(sep)] for a one-character separator. *)
Fixpoint split (sep : ascii) (s : string) : list string :=
  match s with
  | EmptyString => [EmptyString]
  | String c r =>
      if Ascii.eqb c sep then EmptyString :: split sep r
      else consFirst c (split sep r)
  end.

(** [s.split(/\r?\n/)]. *)
Fixpoint splitLines (s : string) : list string :=
  match s with
  | EmptyString => [EmptyString]
  | String c r =>
      if Ascii.eqb c LF then EmptyString :: splitLines r
      else match r with
           | String c' r' =>
               if Ascii.eqb c CR && Ascii.eqb c' LF
               then EmptyString :: splitLines r'
               else consFirst c (splitLines r)
           | EmptyString => consFirst c (splitLines r)
           end
  end.

(** [pieces.join(sep)]. *)
Fixpoint join (sep : string) (pieces : list string) : string :=
  match pieces with
  | [] => EmptyString
  | [p] => p
  | p :: ps => p +:+ sep +:+ join sep ps
  end.

(** [toLowerCase] on the letters A to Z. *)
Definition lowerChar (c : ascii) : ascii :=
  let n := N_of_ascii c in
  if ((65 <=? n) && (n <=? 90))%N then ascii_of_N (n + 32) else c.

Fixpoint toLowerCase (s : string) : string :=
  match s with
  | EmptyString => EmptyString
  | String c r => String (lowerChar c) (toLowerCase r)
  end.

(** The leading decimal digits of a string, as digit values. *)
Fixpoint leadingDigits (s : string) : list Z :=
  match s with
  | String c r =>
      match JSDate.digit c with
      | Some d => d :: leadingDigits r
      | None => []
      end
  | EmptyString => []
  end.

Definition digitsToZ (ds : list Z) : Z := foldl (fun acc d => acc * 10 + d) 0 ds.

(** [parseInt(s, 10)]: blanks are skipped, a sign is read, then the
    longest run of digits; [None] is NaN (no digit).  Integers are
    exact here; the code's are exact below 2^53. *)
Definition parseInt (s : string) : option Z :=
  let s := trimStart s in
  let '(neg, body) :=
    match s with
    | String "-" r => (true, r)
    | String "+" r => (false, r)
    | _ => (false, s)
    end in
  match leadingDigits body with
  | [] => None
  | ds => Some (if neg then - digitsToZ ds else digitsToZ ds)
  end.

End JSString.

(** ** CSV export *)

Definition toHHMM (m : Z) : string :=
  let h := JSDate.padStart0 2 (pretty (m / 60)) in
  let mm := JSDate.padStart0 2 (pretty (Z.rem m 60)) in
  h +:+ ":" +:+ mm.

Definition weekdayName (d : Weekday) : string :=
  match d with
  | Saturday => "Saturday" | Sunday => "Sunday" | Monday => "Monday"
  | Tuesday => "Tuesday" | Wednesday => "Wednesday" | Thursday => "Thursday"
  | Friday => "Friday"
  end.

Definition csvHeader : list string :=
  ["agent"; "day"; "active"; "start"; "end"; "break_start"; "break_minutes"].

(** [roster[a.name]?.[d] || DEFAULT_DAY]. *)
Definition blockOrDefault (roster : Roster) (nm : string) (d : Weekday) : DayBlock :=
  default DEFAULT_DAY (roster !! nm ≫= (.!! d)).

Definition exportRow (roster : Roster) (a : Agent) (d : Weekday) : string :=
  let blk := blockOrDefault roster (name a) d in
  JSString.join ","
    [ name a;
      weekdayName d;
      if active blk then "1" else "0";
      toHHMM (startMin blk);
      toHHMM (endMin blk);
      match breakStartMin blk with Some b => toHHMM b | None => "" end;
      pretty (breakMinsOr0 blk) ].

Definition exportCSV (roster : Roster) (agents : list Agent) : string :=
  let rows := agents ≫= (fun a => (fun d => exportRow roster a d) <$> WEEKDAYS) in
  JSString.join (String JSString.LF EmptyString) (JSString.join "," csvHeader :: rows).

(** ** CSV import *)

Abbreviation CsvRow := (gmap string string).

(** [headers.forEach((h, i) => (obj[h] = parts[i] || ""))]. *)
Definition rowObject (headers parts : list string) : CsvRow :=
  foldl (fun obj hi => <[hi.2 := default "" (parts !! hi.1)]> obj) ∅
        (imap (fun i h => (i, h)) headers).

Definition parseCSV (text : string) : list string * list CsvRow :=
  let lines := JSString.splitLines (JSString.trim text) in
  let headers := JSString.trim <$> JSString.split "," (default "" (head lines)) in
  let rows :=
    (fun line => rowObject headers (JSString.trim <$> JSString.split "," line))
      <$> tail lines in
  (headers, rows).

(** [r[key]], with the absent field read as the empty string: every use
    below treats the two alike. *)
Definition field (r : CsvRow) (key : string) : string := default "" (r !! key).

(** The result of [toMin]. *)
Inductive MinuteOfDay :=
  | Undefined
  | NotANumber
  | Minute (m : Z).

(** [toMin]: a field without a colon has no minute part; [Number.isNaN]
    lets the missing part through and the sum is NaN. *)
Definition toMin (hhmm : string) : MinuteOfDay :=
  if (hhmm =? "")%string then Undefined
  else match JSString.parseInt <$> JSString.split ":" hhmm with
       | Some hh :: Some mm :: _ =>
           Minute (Z.max 0 (Z.min 23 hh) * 60 + Z.max 0 (Z.min 59 mm))
       | [Some hh] => NotANumber
       | _ => Undefined
       end.

Definition dayOfName (s : string) : option Weekday :=
  list_find (fun d => weekdayName d = s) WEEKDAYS ≫= (fun p => Some p.2).

Definition importedAgent (nm : string) : Agent :=
  {| name := nm; country := "SA"; level := junior; remote := true;
     fridayAllowed := true; breakPref := break60 |}.

(** The block a row yields; [None] when a stored minute is NaN, a value
    the integer fields of [DayBlock] do not hold. *)
Definition blockOfRow (r : CsvRow) : option DayBlock :=
  let act :=
    (field r "active" =? "1")%string
    || (JSString.trim (JSString.toLowerCase (field r "active")) =? "true")%string in
  let breakMins' := default 0 (JSString.parseInt
      (if (field r "break_minutes" =? "")%string then "0" else field r "break_minutes")) in
  startMin' ← match toMin (field r "start") with
               | Undefined => Some (startMin DEFAULT_DAY)
               | NotANumber => None
               | Minute m => Some m
               end;
  endMin' ← match toMin (field r "end") with
             | Undefined => Some (endMin DEFAULT_DAY)
             | NotANumber => None
             | Minute m => Some m
             end;
  breakStart' ← (if 0 <? breakMins' then
                   match toMin (field r "break_start") with
                   | Undefined => Some None
                   | NotANumber => None
                   | Minute m => Some (Some m)
                   end
                 else Some None);
  Some {| active := act; startMin := startMin'; endMin := endMin';
          breakStartMin := breakStart'; breakMins := Some (Z.max 0 breakMins') |}.

(** One iteration of [for (const r of rows)] on [(nextAgents, nextRoster)]. *)
Definition importRow (st : option (list Agent * Roster)) (r : CsvRow)
    : option (list Agent * Roster) :=
  '(nextAgents, nextRoster) ← st;
  let nm := field r "agent" in
  match dayOfName (field r "day") with
  | Some day =>
      if (nm =? "")%string then st
      else
        let nextAgents' :=
          if existsb (fun a => (name a =? nm)%string) nextAgents then nextAgents
          else nextAgents ++ [importedAgent nm] in
        blk ← blockOfRow r;
        let week := default ∅ (nextRoster !! nm) in
        Some (nextAgents', <[nm := <[day := blk]> week]> nextRoster)
  | None => st
  end.

Inductive ImportOutcome :=
  | HeadersRejected (alert : string)
  | Imported (nextAgents : list Agent) (nextRoster : Roster)
  | StoresNaN.

Definition onImport (text : string) (agents : list Agent) (roster : Roster)
    : ImportOutcome :=
  let '(headers, rows) := parseCSV text in
  if forallb (fun h => existsb (String.eqb h) headers) csvHeader then
    match foldl importRow (Some (agents, roster)) rows with
    | Some (nextAgents, nextRoster) => Imported nextAgents nextRoster
    | None => StoresNaN
    end
  else HeadersRejected ("CSV headers must be: " +:+ JSString.join ", " csvHeader).

(** ** Vocabulary of the CSV round trip *)

(** Every character of [s] passes the test [P]. *)
Fixpoint charsAll (P : ascii -> bool) (s : string) : bool :=
  match s with
  | EmptyString => true
  | String c r => P c && charsAll P r
  end.

Fixpoint lastChar (s : string) : option ascii :=
  match s with
  | EmptyString => None
  | String c EmptyString => Some c
  | String _ r => lastChar r
  end.

Definition isDigit (c : ascii) : bool :=
  match JSDate.digit c with Some _ => true | None => false end.

Definition notChar (x : ascii) (c : ascii) : bool := negb (Ascii.eqb c x).

(** Neither a line feed nor a carriage return. *)
Definition noBreak (c : ascii) : bool :=
  notChar JSString.LF c && notChar JSString.CR c.

(** A character that may stand in a CSV field of this format: no comma,
    no line break. *)
Definition fieldChar (c : ascii) : bool := notChar "," c && noBreak c.

(** A character of the fields the export prints itself: a field character
    that is not a blank either. *)
Definition plainChar (c : ascii) : bool := fieldChar c && negb (JSString.isSpace c).

(** An agent name the CSV format carries unchanged: not empty, without
    comma or line break, without blanks at either end. *)
Definition wellFormedName (nm : string) : Prop :=
  nm <> "" /\ charsAll fieldChar nm = true /\ JSString.trim nm = nm.

(** The minute fields are minutes of a day and the break is not negative. *)
Definition inRange (blk : DayBlock) : Prop :=
  0 <= startMin blk < 1440
  /\ 0 <= endMin blk < 1440
  /\ (forall b, breakStartMin blk = Some b -> 0 <= b < 1440)
  /\ 0 <= breakMinsOr0 blk.

(** What the import makes of an exported block: the break start is kept
    only with a positive break, the break length is always present. *)
Definition reimported (blk : DayBlock) : DayBlock :=
  {| active := active blk;
     startMin := startMin blk;
     endMin := endMin blk;
     breakStartMin := if 0 <? breakMinsOr0 blk then breakStartMin blk else None;
     breakMins := Some (breakMinsOr0 blk) |}.

(** The test run over every minute of the day: the exported time reads
    back as the same minute and is made of plain characters. *)
Definition hhmmRoundTrips (m : Z) : bool :=
  match toMin (toHHMM m) with
  | Minute m' => (m' =? m) && charsAll plainChar (toHHMM m)
  | _ => false
  end.

(** The fields of the row the export prints for a block. *)
Definition exportFields (nm : string) (d : Weekday) (blk : DayBlock) : list string :=
  [ nm; weekdayName d; if active blk then "1" else "0";
    toHHMM (startMin blk); toHHMM (endMin blk);
    match breakStartMin blk with Some b => toHHMM b | None => "" end;
    pretty (breakMinsOr0 blk) ].

(** The pairs of agent and weekday the export prints, in its order. *)
Definition exportedPairs (agents : list Agent) : list (Agent * Weekday) :=
  agents ≫= (fun a => (fun d => (a, d)) <$> WEEKDAYS).

(** The list of agents once a row for [nm] has been read. *)
Definition withAgent (nm : string) (agents : list Agent) : list Agent :=
  if existsb (fun a => (name a =? nm)%string) agents then agents
  else agents ++ [importedAgent nm].

(** [nextRoster[nm][day] = blk], on a fresh week when there is none. *)
Definition writeBlock (nm : string) (day : Weekday) (blk : DayBlock) (r : Roster) : Roster :=
  <[nm := <[day := blk]> (default ∅ (r !! nm))]> r.

(** The string ends with a character that is not a blank. *)
Definition endsUnblanked (s : string) : Prop :=
  exists c, lastChar s = Some c /\ JSString.isSpace c = false.

(** ** Reference values used in the statements *)

(** The block of the worked coverage example: 09:00 to 17:00 with an hour
    of break at 13:00. *)
Definition nineToFive : DayBlock :=
  {| active := true; startMin := 540; endMin := 1020;
     breakStartMin := Some 780; breakMins := Some 60 |}.

(** Buckets 18 to 33 without the two break buckets 26 and 27. *)
Definition nineToFiveBucket (k : nat) : Z :=
  if ((18 <=? k) && (k <=? 33) && negb (k =? 26) && negb (k =? 27))%nat then 1 else 0.

Definition nobody : list Z := replicate 48 0.

(** 1 when the block puts its agent in bucket [k], 0 otherwise. *)
Definition present (blk : DayBlock) (k : nat) : Z :=
  if 0 <? netPresence blk k then 1 else 0.


Definition agentNamed (nm : string) : Agent := importedAgent nm.

(** 1 when the agent counts in bucket [k] of the day, 0 otherwise. *)
Definition agentPresent (roster : Roster) (day : Weekday) (dateISO : string)
    (vacations : Vacations) (a : Agent) (k : nat) : Z :=
  if isAgentOnVacation (name a) dateISO vacations then 0
  else match roster !! name a ≫= (.!! day) with
       | Some blk => if active blk then present blk k else 0
       | None => 0
       end.

(** The number of agents of the list present in bucket [k]. *)
Definition headcount (roster : Roster) (day : Weekday) (dateISO : string)
    (vacations : Vacations) (agents : list Agent) (k : nat) : Z :=
  foldr (fun a n => agentPresent roster day dateISO vacations a k + n) 0 agents.

(** A block whose break was reduced to zero minutes with the minus button:
    the break start of 13:00 is still stored. *)
Definition breakRemoved : DayBlock :=
  {| active := true; startMin := 540; endMin := 1020;
     breakStartMin := Some 780; breakMins := Some 0 |}.

Definition aliMonday (blk : DayBlock) : Roster := {[ "Ali" := {[ Monday := blk ]} ]}.

(** The starts of two ranges are in order. *)
Definition startsInOrder (A B : VacationRange) : Prop :=
  compareISO (start A) (start B) <= 0.

(** Two consecutive ranges as the sweep leaves them: starts in order, and
    the second start after the day that [addDaysISO] gives for the day
    following the first end. *)
Definition keptApart (tz : Z) (A B : VacationRange) : Prop :=
  startsInOrder A B
  /\ exists next, addDaysISO tz (end_ A) 1 = Some next
                  /\ 0 < compareISO (start B) next.

(** What the sweep keeps true: the output so far is a chain of ranges
    kept apart, what is left is sorted, and the last output range starts
    no later than anything left. *)
Definition sweepInvariant (tz : Z) (out rest : list VacationRange) : Prop :=
  Sorted (keptApart tz) out
  /\ StronglySorted startsInOrder rest
  /\ forall y, last out = Some y -> Forall (startsInOrder y) rest.

(** A store in which no key holds the empty list. *)
Definition noEmptyEntry (v : Vacations) : Prop := forall nm, v !! nm <> Some [].

(** The store when the agent's insertions [ins] have been made one after
    the other, starting from [v]. *)
Definition insertAll (tz : Z) (agentName : string) (ins : list (string * string))
    (v : Vacations) : Vacations :=
  foldl (fun v se => vacationsAfter v (addVacationRange tz agentName se.1 se.2 v)) v ins.

(** The forecast state the application starts with: the Montana profile
    and 650 tickets on every weekday, six minutes of handle time, 85%
    occupancy, no buffer. *)
Definition initialForecast {R : Type} `{JSNumber R} : Forecast R :=
  {| hourlyPctByDay := list_to_map ((fun d => (d, HOURLY_LOAD_PCT_DEFAULT)) <$> WEEKDAYS);
     dailyAvg := list_to_map ((fun d => (d, MONTANA_DAILY_AVG)) <$> WEEKDAYS);
     ahtMin := num 6;
     occupancy := num 0.85;
     serviceBuffer := num 0 |}.

(** A profile that sums to 100 with its peak of 7.2 in the first hour. *)
Definition peakedProfile {R : Type} `{JSNumber R} : list R :=
  num <$> ([7.2; 2.8] ++ replicate 18 4.5 ++ replicate 4 2.25)%Q.

Definition peakedForecast {R : Type} `{JSNumber R} : Forecast R :=
  {| hourlyPctByDay := {[ Monday := peakedProfile ]};
     dailyAvg := {[ Monday := num 650 ]};
     ahtMin := num 6;
     occupancy := num 0.85;
     serviceBuffer := num 2 |}.

(** * Properties *)

(** ** Coverage engine *)

Lemma coverBlock_length blk cov : length (coverBlock blk cov) = length cov.
Proof.
  unfold coverBlock. generalize (seq 0 48). intros ks. revert cov.
  induction ks as [|k ks IH]; intros cov; simpl; [reflexivity|].
  rewrite IH. destruct (0 <? netPresence blk k); [apply length_alter | reflexivity].
Qed.

(** A block without positive net presence in any bucket leaves the counters alone. *)
Lemma coverAgent_length roster day dateISO vacations cov a :
  length (coverAgent roster day dateISO vacations cov a) = length cov.
Proof.
  unfold coverAgent. destruct (isAgentOnVacation _ _ _); [reflexivity|].
  destruct (roster !! name a ≫= (.!! day)) as [blk|]; [|reflexivity].
  destruct (active blk); [apply coverBlock_length | reflexivity].
Qed.

(** The coverage has 48 buckets. *)
Lemma halfHourCoverage_length roster agents day dateISO vacations :
  length (halfHourCoverage roster agents day dateISO vacations) = 48%nat.
Proof.
  unfold halfHourCoverage.
  assert (H : forall l cov, length (foldl (coverAgent roster day dateISO vacations) cov l)
                            = length cov).
  { induction l as [|a l IH]; intros cov; [reflexivity|].
    simpl. rewrite IH. apply coverAgent_length. }
  rewrite H. apply length_replicate.
Qed.

Lemma coverBlock_absent blk cov :
  (forall k, netPresence blk k <= 0) -> coverBlock blk cov = cov.
Proof.
  intros Hnet. unfold coverBlock. generalize (seq 0 48). intros ks.
  induction ks as [|k ks IH]; simpl; [reflexivity|].
  destruct (Z.ltb_spec 0 (netPresence blk k)) as [Hpos|_]; [|exact IH].
  specialize (Hnet k). lia.
Qed.

Lemma contribution_unfold roster a day dateISO vacations :
  contribution roster a day dateISO vacations =
  coverAgent roster day dateISO vacations nobody a.
Proof. reflexivity. Qed.

Lemma halfHourCoverage_skip roster day dateISO vacations a l1 l2 :
  (forall cov, coverAgent roster day dateISO vacations cov a = cov) ->
  halfHourCoverage roster (l1 ++ a :: l2) day dateISO vacations =
  halfHourCoverage roster (l1 ++ l2) day dateISO vacations.
Proof.
  intros Hskip. unfold halfHourCoverage.
  rewrite !foldl_app. simpl. rewrite Hskip. reflexivity.
Qed.

Lemma isAgentOnVacation_true agent isoDate vacations :
  isAgentOnVacation agent isoDate vacations = true <->
  exists r, r ∈ default [] (vacations !! agent)
            /\ compareISO (start r) isoDate <= 0
            /\ compareISO isoDate (end_ r) <= 0.
Proof.
  unfold isAgentOnVacation, withinRange. rewrite existsb_exists. split.
  - intros (r & Hin & Hr). exists r. apply andb_prop in Hr as [H1 H2].
    rewrite list_elem_of_In.
    apply Z.leb_le in H1, H2. auto.
  - intros (r & Hin & H1 & H2). exists r. rewrite <- list_elem_of_In.
    split; [exact Hin|]. apply andb_true_intro. split; apply Z.leb_le; assumption.
Qed.

(** The bucket loop adds 1 to the counter of every bucket below 48 in
    which the block is present, and touches no other counter. *)
Lemma coverBlock_lookup blk cov k :
  coverBlock blk cov !! k =
  (fun c => if (k <? 48)%nat then c + present blk k else c) <$> cov !! k.
Proof.
  unfold coverBlock.
  assert (Hgen : forall n s (cov : list Z),
    foldl (fun cov k => if 0 <? netPresence blk k then alter Z.succ k cov else cov)
          cov (seq s n) !! k =
    (fun c => if ((s <=? k) && (k <? s + n))%nat then c + present blk k else c)
      <$> cov !! k).
  { clear cov. induction n as [|n IH]; intros s cov.
    - simpl. replace ((s <=? k)%nat && (k <? s + 0)%nat) with false.
      + destruct (cov !! k); reflexivity.
      + symmetry. apply andb_false_iff.
        destruct (Nat.leb_spec s k); [right; apply Nat.ltb_ge; lia | left; reflexivity].
    - cbn [seq foldl]. rewrite IH. unfold present.
      destruct (decide (k = s)) as [->|Hne].
      + replace ((S s <=? s)%nat && (s <? S s + n)%nat) with false
          by (symmetry; apply andb_false_iff; left; apply Nat.leb_gt; lia).
        replace ((s <=? s)%nat && (s <? s + S n)%nat) with true
          by (symmetry; apply andb_true_iff; split;
              [apply Nat.leb_le | apply Nat.ltb_lt]; lia).
        destruct (0 <? netPresence blk s).
        * rewrite list_lookup_alter_eq. destruct (cov !! s); simpl; f_equal; lia.
        * destruct (cov !! s); simpl; f_equal; lia.
      + replace ((s <=? k)%nat && (k <? s + S n)%nat)
          with ((S s <=? k)%nat && (k <? S s + n)%nat).
        * destruct (0 <? netPresence blk s);
            [rewrite list_lookup_alter_ne by congruence|]; reflexivity.
        * destruct (Nat.leb_spec (S s) k), (Nat.leb_spec s k),
            (Nat.ltb_spec k (S s + n)), (Nat.ltb_spec k (s + S n)); simpl;
            first [reflexivity | lia]. }
  rewrite Hgen. simpl. reflexivity.
Qed.

Lemma coverAgent_lookup roster day dateISO vacations cov a k :
  (k < 48)%nat ->
  coverAgent roster day dateISO vacations cov a !! k =
  (fun n => n + agentPresent roster day dateISO vacations a k) <$> cov !! k.
Proof.
  intros Hk. unfold coverAgent, agentPresent.
  assert (Hid : cov !! k = (fun n => n + 0) <$> cov !! k)
    by (destruct (cov !! k); simpl; f_equal; lia).
  destruct (isAgentOnVacation _ _ _); [exact Hid|].
  destruct (roster !! name a ≫= (.!! day)) as [blk|]; [|exact Hid].
  destruct (active blk); [|exact Hid].
  rewrite coverBlock_lookup. apply Nat.ltb_lt in Hk. rewrite Hk. reflexivity.
Qed.

(** Coverage is a head count: bucket [k] holds the number of agents of
    the list who are present in it. *)
Lemma halfHourCoverage_headcount roster agents day dateISO vacations k :
  (k < 48)%nat ->
  halfHourCoverage roster agents day dateISO vacations !! k =
  Some (headcount roster day dateISO vacations agents k).
Proof.
  intros Hk. unfold halfHourCoverage.
  assert (Hgen : forall l (cov : list Z),
    foldl (coverAgent roster day dateISO vacations) cov l !! k =
    (fun n => n + headcount roster day dateISO vacations l k) <$> cov !! k).
  { induction l as [|a l IH]; intros cov.
    - simpl. destruct (cov !! k); simpl; f_equal; lia.
    - cbn [foldl headcount foldr]. rewrite IH, coverAgent_lookup by exact Hk.
      destruct (cov !! k); simpl; f_equal. unfold headcount. lia. }
  rewrite Hgen. unfold nobody. rewrite lookup_replicate_2 by exact Hk. reflexivity.
Qed.

(** C2: the 09:00-17:00 block with a 60-minute break at 13:00 puts a
    non-vacationing agent in buckets 18 to 33 except 26 and 27, and in no
    other bucket. *)
Theorem C2_nine_to_five_contribution roster a day dateISO vacations (k : nat) :
  isAgentOnVacation (name a) dateISO vacations = false ->
  roster !! name a ≫= (.!! day) = Some nineToFive ->
  (k < 48)%nat ->
  contribution roster a day dateISO vacations !! k = Some (nineToFiveBucket k).
Proof.
  intros Hvac Hblk Hk. rewrite contribution_unfold. unfold coverAgent.
  rewrite Hvac, Hblk. cbn [active nineToFive].
  let v := eval vm_compute in (coverBlock nineToFive nobody) in
  change (coverBlock nineToFive nobody) with v.
  do 48 (destruct k as [|k]; [reflexivity|]). lia.
Qed.

Lemma C2_nine_to_five_contribution_witness :
  contribution {[ "Ali" := {[ Monday := nineToFive ]} ]} (agentNamed "Ali")
               Monday "2024-06-10" ∅ !! 26%nat = Some 0
  /\ contribution {[ "Ali" := {[ Monday := nineToFive ]} ]} (agentNamed "Ali")
               Monday "2024-06-10" ∅ !! 25%nat = Some 1.
Proof.
  split.
  - apply (C2_nine_to_five_contribution _ (agentNamed "Ali") Monday "2024-06-10" ∅ 26);
      [reflexivity | reflexivity | lia].
  - apply (C2_nine_to_five_contribution _ (agentNamed "Ali") Monday "2024-06-10" ∅ 25);
      [reflexivity | reflexivity | lia].
Defined.

(** C3: an agent with a stored range that contains the date adds nothing
    to any of the 48 buckets, whatever the roster holds for that agent:
    the agent's own contribution is zero everywhere, and the coverage of a
    list of agents is the coverage of the list without that agent. *)
Theorem C3_vacationing_agent_excluded roster a day dateISO vacations r :
  r ∈ default [] (vacations !! name a) ->
  compareISO (start r) dateISO <= 0 ->
  compareISO dateISO (end_ r) <= 0 ->
  contribution roster a day dateISO vacations = replicate 48 0
  /\ forall l1 l2,
       halfHourCoverage roster (l1 ++ a :: l2) day dateISO vacations =
       halfHourCoverage roster (l1 ++ l2) day dateISO vacations.
Proof.
  intros Hin H1 H2. change (replicate 48 0) with nobody.
  assert (Hvac : isAgentOnVacation (name a) dateISO vacations = true)
    by (apply isAgentOnVacation_true; eauto).
  assert (Hskip : forall cov, coverAgent roster day dateISO vacations cov a = cov)
    by (intros cov; unfold coverAgent; rewrite Hvac; reflexivity).
  split.
  - rewrite contribution_unfold. apply Hskip.
  - intros l1 l2. apply halfHourCoverage_skip, Hskip.
Qed.

Lemma C3_vacationing_agent_excluded_witness :
  contribution {[ "Ali" := {[ Monday := nineToFive ]} ]} (agentNamed "Ali") Monday
    "2024-06-10" {[ "Ali" := [mkRange "2024-06-05" "2024-06-15"] ]} = replicate 48 0.
Proof.
  apply (C3_vacationing_agent_excluded _ (agentNamed "Ali") Monday "2024-06-10"
           {[ "Ali" := [mkRange "2024-06-05" "2024-06-15"] ]}
           (mkRange "2024-06-05" "2024-06-15")).
  - vm_compute. apply list_elem_of_here.
  - vm_compute. discriminate.
  - vm_compute. discriminate.
Defined.

Lemma netPresence_degenerate blk k :
  endMin blk <= startMin blk -> netPresence blk k <= 0.
Proof.
  intros Hdeg. unfold netPresence.
  destruct (breakStartMin blk) as [bs|];
    [destruct (0 <? breakMinsOr0 blk)|]; lia.
Qed.

(** C4: a block whose end is not after its start adds nothing to any of
    the 48 buckets, whatever its active flag and break fields. *)
Theorem C4_degenerate_block_contributes_nothing roster a day dateISO vacations blk :
  roster !! name a ≫= (.!! day) = Some blk ->
  endMin blk <= startMin blk ->
  contribution roster a day dateISO vacations = replicate 48 0
  /\ forall k, (k < 48)%nat -> contribution roster a day dateISO vacations !! k = Some 0.
Proof.
  intros Hblk Hdeg. change (replicate 48 0) with nobody.
  assert (Hc : contribution roster a day dateISO vacations = nobody).
  { rewrite contribution_unfold. unfold coverAgent. rewrite Hblk.
    destruct (isAgentOnVacation _ _ _); [reflexivity|].
    destruct (active blk); [|reflexivity].
    apply coverBlock_absent. intros k. apply netPresence_degenerate, Hdeg. }
  split; [exact Hc|].
  intros k Hk. rewrite Hc. unfold nobody. apply lookup_replicate_2, Hk.
Qed.

Lemma C4_degenerate_block_contributes_nothing_witness :
  contribution {[ "Ali" := {[ Monday := mkDayBlock true 1020 540 (Some 780) (Some 60) ]} ]}
    (agentNamed "Ali") Monday "2024-06-10" ∅ = replicate 48 0.
Proof.
  apply (C4_degenerate_block_contributes_nothing _ (agentNamed "Ali") Monday "2024-06-10" ∅
           (mkDayBlock true 1020 540 (Some 780) (Some 60))).
  - reflexivity.
  - simpl. lia.
Defined.

(** An agent whose roster has no entry for the weekday is skipped by the
    coverage loop. *)
Lemma coverAgent_missing_weekday roster a day dateISO vacations cov :
  roster !! name a ≫= (.!! day) = None ->
  coverAgent roster day dateISO vacations cov a = cov.
Proof.
  intros Hnone. unfold coverAgent. rewrite Hnone.
  destruct (isAgentOnVacation _ _ _); reflexivity.
Qed.

(** C8: an agent imported with a Monday row only.  On Tuesday the export
    and the schedule table read the missing entry as the default
    09:00-17:00 block, and a stored copy of that block covers bucket 18;
    the coverage engine counts the agent in no bucket. *)
Theorem C8_missing_weekday_not_covered :
  let roster : Roster := {[ "Ali" := {[ Monday := DEFAULT_DAY ]} ]} in
  let stored : Roster := {[ "Ali" := {[ Monday := DEFAULT_DAY; Tuesday := DEFAULT_DAY ]} ]} in
  blockOrDefault roster "Ali" Tuesday = DEFAULT_DAY
  /\ halfHourCoverage roster [agentNamed "Ali"] Tuesday "2024-06-11" ∅ = replicate 48 0
  /\ halfHourCoverage stored [agentNamed "Ali"] Tuesday "2024-06-11" ∅ !! 18%nat = Some 1.
Proof. vm_compute. repeat split. Qed.

(** ** Vacation interval store *)

(** C5: an insertion whose start is after its end is refused with the
    alert and leaves the store as it was. *)
Theorem C5_inverted_range_rejected tz agentName startDate endDate prev :
  agentName <> "" -> startDate <> "" -> endDate <> "" ->
  compareISO startDate endDate > 0 ->
  addVacationRange tz agentName startDate endDate prev = Rejected invalidRangeAlert
  /\ vacationsAfter prev (addVacationRange tz agentName startDate endDate prev) = prev.
Proof.
  intros Ha Hs He Hgt. unfold addVacationRange.
  apply String.eqb_neq in Ha, Hs, He. rewrite Ha, Hs, He. simpl.
  destruct (Z.ltb_spec 0 (compareISO startDate endDate)) as [_|Hle]; [|lia].
  split; reflexivity.
Qed.

Lemma C5_inverted_range_rejected_witness :
  addVacationRange 180 "Ali" "2024-06-10" "2024-06-05"
    {[ "Ali" := [mkRange "2024-06-01" "2024-06-02"] ]} = Rejected invalidRangeAlert
  /\ vacationsAfter {[ "Ali" := [mkRange "2024-06-01" "2024-06-02"] ]}
       (addVacationRange 180 "Ali" "2024-06-10" "2024-06-05"
          {[ "Ali" := [mkRange "2024-06-01" "2024-06-02"] ]})
     = {[ "Ali" := [mkRange "2024-06-01" "2024-06-02"] ]}.
Proof.
  apply (C5_inverted_range_rejected 180 "Ali" "2024-06-10" "2024-06-05").
  - discriminate.
  - discriminate.
  - discriminate.
  - vm_compute. reflexivity.
Defined.

(** With the host on Greenwich time the two worked examples come out as
    described: the adjacent ranges become one, the ranges two days apart
    stay two. *)
Lemma adjacent_ranges_merged_on_Greenwich_time :
  insertAll 0 "Ali" [("2024-06-05", "2024-06-10"); ("2024-06-11", "2024-06-15")] ∅ !! "Ali"
  = Some [mkRange "2024-06-05" "2024-06-15"].
Proof. vm_compute. reflexivity. Qed.

Lemma ranges_two_days_apart_kept :
  forall tz, In tz [-300; 0; 180] ->
  insertAll tz "Ali" [("2024-06-05", "2024-06-10"); ("2024-06-12", "2024-06-15")] ∅ !! "Ali"
  = Some [mkRange "2024-06-05" "2024-06-10"; mkRange "2024-06-12" "2024-06-15"].
Proof.
  intros tz [<-|[<-|[<-|[]]]]; vm_compute; reflexivity.
Qed.

(** The outcome of the adjacent insertion follows the side of Greenwich
    the host is on. *)
Lemma adjacent_ranges_by_zone :
  Forall (fun tz =>
    insertAll tz "Ali" [("2024-06-05", "2024-06-10"); ("2024-06-11", "2024-06-15")] ∅ !! "Ali"
    = Some [mkRange "2024-06-05" "2024-06-15"]) [-480; -300; -60; 0]
  /\ Forall (fun tz =>
    insertAll tz "Ali" [("2024-06-05", "2024-06-10"); ("2024-06-11", "2024-06-15")] ∅ !! "Ali"
    = Some [mkRange "2024-06-05" "2024-06-10"; mkRange "2024-06-11" "2024-06-15"])
    [60; 120; 180; 330; 540].
Proof. split; repeat constructor. Qed.

(** East of Greenwich the day added by [addDaysISO] is lost again when
    the local midnight is printed in UTC. *)
Lemma addDaysISO_east_of_Greenwich :
  addDaysISO 180 "2024-06-10" 1 = Some "2024-06-10"
  /\ addDaysISO 0 "2024-06-10" 1 = Some "2024-06-11".
Proof. vm_compute. split; reflexivity. Qed.

Lemma removeRange_lookup nm idx prev :
  removeRange nm idx prev !! nm =
  match delete idx (default [] (prev !! nm)) with
  | [] => None
  | list => Some list
  end.
Proof.
  unfold removeRange.
  destruct (delete idx (default [] (prev !! nm))) as [|x l]; simpl.
  - apply lookup_delete_eq.
  - apply lookup_insert_eq.
Qed.

Lemma removeRange_other nm idx prev other :
  other <> nm -> removeRange nm idx prev !! other = prev !! other.
Proof.
  intros Hne. unfold removeRange.
  destruct (length _ =? 0)%nat;
    [rewrite lookup_delete_ne | rewrite lookup_insert_ne]; congruence.
Qed.

(** *** The order of dates *)

Lemma compareISO_le a b : compareISO a b <= 0 <-> String.leb a b = true.
Proof.
  unfold compareISO, String.ltb, String.leb.
  rewrite (String.compare_antisym b a).
  destruct (a ?= b)%string; simpl; split; intros; first [reflexivity | lia | discriminate].
Qed.

Lemma compareISO_not_lt a b : ~ compareISO a b < 0 -> compareISO b a <= 0.
Proof.
  unfold compareISO, String.ltb. rewrite (String.compare_antisym b a).
  destruct (a ?= b)%string; simpl; lia.
Qed.

#[local] Instance startsInOrder_trans : Transitive startsInOrder.
Proof.
  intros A B C. unfold startsInOrder. rewrite !compareISO_le.
  intros H1 H2. apply Is_true_true.
  apply Is_true_true in H1, H2.
  exact (transitivity (R := String.le) H1 H2).
Qed.

(** *** Sorting by start *)

Lemma insertByStart_elem r l x : x ∈ insertByStart r l <-> x = r \/ x ∈ l.
Proof.
  induction l as [|y l IH]; simpl.
  - rewrite list_elem_of_singleton, elem_of_nil. tauto.
  - destruct (compareISO (start r) (start y) <? 0).
    + rewrite elem_of_cons. reflexivity.
    + rewrite !elem_of_cons, IH. tauto.
Qed.

Lemma insertByStart_sorted r l :
  StronglySorted startsInOrder l -> StronglySorted startsInOrder (insertByStart r l).
Proof.
  induction 1 as [|y l Hl IH Hy]; simpl.
  - repeat constructor.
  - destruct (Z.ltb_spec (compareISO (start r) (start y)) 0) as [Hlt|Hge].
    + constructor; [constructor; assumption|].
      assert (Hry : startsInOrder r y) by (unfold startsInOrder; lia).
      constructor; [exact Hry|].
      eapply Forall_impl; [exact Hy|]. intros z Hz. exact (transitivity Hry Hz).
    + constructor; [exact IH|].
      apply Forall_forall. intros z Hz. apply insertByStart_elem in Hz as [->|Hz].
      * apply compareISO_not_lt. lia.
      * exact (proj1 (Forall_forall _ _) Hy z Hz).
Qed.

Lemma sortByStart_sorted ranges : StronglySorted startsInOrder (sortByStart ranges).
Proof.
  unfold sortByStart.
  assert (H : forall l acc, StronglySorted startsInOrder acc ->
              StronglySorted startsInOrder (foldl (fun acc r => insertByStart r acc) acc l)).
  { induction l as [|r l IH]; intros acc Hacc; [exact Hacc|].
    simpl. apply IH, insertByStart_sorted, Hacc. }
  apply H. constructor.
Qed.

(** *** The sweep *)

Section Sweep.
Variable tz : Z.

Lemma Sorted_snoc {A} (R : A -> A -> Prop) l x :
  Sorted R (l ++ [x]) <-> Sorted R l /\ forall y, last l = Some y -> R y x.
Proof.
  induction l as [|a l IH]; simpl.
  - split; [intros _; split; [constructor | discriminate] | intros _; repeat constructor].
  - split.
    + intros H. apply Sorted_inv in H as [Hs Hhd]. apply IH in Hs as [Hsl Hlast].
      split.
      * constructor; [exact Hsl|]. destruct l; [constructor|].
        inversion Hhd; subst. constructor. assumption.
      * intros y Hy. destruct l as [|b l]; [|apply Hlast; exact Hy].
        simpl in Hy. injection Hy as <-. inversion Hhd; subst. assumption.
    + intros [Hs Hlast]. apply Sorted_inv in Hs as [Hsl Hhd].
      constructor.
      * apply IH. split; [exact Hsl|]. intros y Hy. apply Hlast.
        destruct l; [discriminate | exact Hy].
      * destruct l as [|b l]; simpl; constructor.
        -- apply Hlast. reflexivity.
        -- inversion Hhd; subst. assumption.
Qed.

Lemma mergeStep_invariant out r rest out' :
  sweepInvariant tz out (r :: rest) ->
  mergeStep tz out r = Some out' ->
  sweepInvariant tz out' rest.
Proof.
  intros (Hout & Hrest & Hlast) Hstep.
  apply StronglySorted_inv in Hrest as [Hrest Hr].
  unfold mergeStep in Hstep.
  destruct (last out) as [lst|] eqn:El.
  - pose proof (Hlast lst eq_refl) as Hle. apply Forall_cons_1 in Hle as [Hlr Hlrest].
    destruct (addDaysISO tz (end_ lst) 1) as [next|] eqn:En; [|discriminate].
    cbn [mbind option_bind] in Hstep.
    apply last_Some in El as [init ->].
    destruct (Z.leb_spec (compareISO (start r) next) 0) as [Hadj|Hfar].
    + destruct (0 <? compareISO (end_ r) (end_ lst)); injection Hstep as <-.
      * rewrite removelast_last.
        apply Sorted_snoc in Hout as [Hinit Hprev].
        split; [|split; [exact Hrest|]].
        -- apply Sorted_snoc. split; [exact Hinit|]. intros y Hy. exact (Hprev y Hy).
        -- intros y Hy. rewrite last_snoc in Hy. injection Hy as <-. exact Hlrest.
      * split; [exact Hout|]. split; [exact Hrest|].
        intros y Hy. rewrite last_snoc in Hy. injection Hy as <-. exact Hlrest.
    + injection Hstep as <-. split; [|split; [exact Hrest|]].
      * apply Sorted_snoc. split; [exact Hout|].
        intros y Hy. rewrite last_snoc in Hy. injection Hy as <-.
        split; [exact Hlr|]. exists next. split; [exact En | lia].
      * intros y Hy. rewrite last_snoc in Hy. injection Hy as <-. exact Hr.
  - injection Hstep as <-. apply last_None in El. subst out.
    split; [repeat constructor|]. split; [exact Hrest|].
    intros y Hy. simpl in Hy. injection Hy as <-. exact Hr.
Qed.

Lemma sweep_invariant rest out res :
  sweepInvariant tz out rest ->
  foldl (fun out r => out ← out; mergeStep tz out r) (Some out) rest = Some res ->
  Sorted (keptApart tz) res.
Proof.
  revert out. induction rest as [|r rest IH]; intros out Hinv Hfold.
  - simpl in Hfold. injection Hfold as <-. apply Hinv.
  - cbn [foldl mbind option_bind] in Hfold.
    destruct (mergeStep tz out r) as [out'|] eqn:Es.
    + exact (IH out' (mergeStep_invariant _ _ _ _ Hinv Es) Hfold).
    + exfalso. clear -Hfold. induction rest as [|x rest IHr]; [discriminate|].
      apply IHr. exact Hfold.
Qed.

(** Whatever [mergeRanges] returns is sorted by start, and consecutive
    ranges passed the sweep's test of separation. *)
Lemma mergeRanges_kept_apart ranges out :
  mergeRanges tz ranges = Some out -> Sorted (keptApart tz) out.
Proof.
  unfold mergeRanges. destruct (length ranges <=? 1)%nat eqn:El.
  - intros [= <-]. apply Nat.leb_le in El.
    destruct ranges as [|r [|r' ranges]]; simpl in *; first [lia | repeat constructor].
  - apply sweep_invariant. split; [constructor|]. split; [apply sortByStart_sorted|].
    discriminate.
Qed.
End Sweep.

Lemma sortByStart_elem ranges x : x ∈ sortByStart ranges <-> x ∈ ranges.
Proof.
  unfold sortByStart.
  assert (H : forall l acc,
            x ∈ foldl (fun acc r => insertByStart r acc) acc l <-> x ∈ l \/ x ∈ acc).
  { induction l as [|r l IH]; intros acc; simpl.
    - rewrite elem_of_nil. tauto.
    - rewrite IH, insertByStart_elem, elem_of_cons. tauto. }
  rewrite H, elem_of_nil. tauto.
Qed.

Lemma mergeStep_nonempty tz out r out' : mergeStep tz out r = Some out' -> out' <> [].
Proof.
  unfold mergeStep. destruct (last out) as [lst|] eqn:El.
  - destruct (addDaysISO tz (end_ lst) 1) as [next|]; [|discriminate].
    cbn [mbind option_bind].
    destruct (compareISO (start r) next <=? 0);
      [destruct (0 <? compareISO (end_ r) (end_ lst))|];
      intros [= <-]; try (intros E; apply app_eq_nil in E as [_ E]; discriminate).
    intros ->. discriminate.
  - intros [= <-] E. apply app_eq_nil in E as [_ E]. discriminate.
Qed.

Lemma mergeRanges_nonempty tz ranges out :
  ranges <> [] -> mergeRanges tz ranges = Some out -> out <> [].
Proof.
  intros Hne. unfold mergeRanges.
  assert (Hs : sortByStart ranges <> []).
  { destruct ranges as [|r ranges]; [congruence|].
    assert (Hin : r ∈ sortByStart (r :: ranges)) by (apply sortByStart_elem; left).
    intros E. rewrite E in Hin. inversion Hin. }
  destruct (length ranges <=? 1)%nat; [intros [= <-]; exact Hs|].
  destruct (sortByStart ranges) as [|r rest]; [congruence|].
  cbn [foldl mbind option_bind].
  destruct (mergeStep tz [] r) as [out0|] eqn:E0.
  - apply mergeStep_nonempty in E0. clear Hs. revert out0 E0.
    induction rest as [|x rest IH]; intros out0 E0; cbn [foldl mbind option_bind].
    + intros [= <-]. exact E0.
    + destruct (mergeStep tz out0 x) as [out1|] eqn:E1.
      * apply IH. exact (mergeStep_nonempty _ _ _ _ E1).
      * intros Hfold. exfalso. clear -Hfold.
        induction rest as [|y rest IHr]; [discriminate | exact (IHr Hfold)].
  - intros Hfold. exfalso. clear -Hfold.
    induction rest as [|y rest IHr]; [discriminate | exact (IHr Hfold)].
Qed.

(** Every list the store holds after an accepted insertion is such a
    chain, and it is not empty. *)
Lemma addVacationRange_kept_apart tz agentName startDate endDate prev next :
  addVacationRange tz agentName startDate endDate prev = Stored next ->
  exists merged, next !! agentName = Some merged
                 /\ merged <> []
                 /\ Sorted (keptApart tz) merged
                 /\ forall other, other <> agentName -> next !! other = prev !! other.
Proof.
  unfold addVacationRange.
  destruct ((agentName =? "")%string || _ || _); [discriminate|].
  destruct (0 <? compareISO startDate endDate); [discriminate|].
  destruct (mergeRanges tz _) as [merged|] eqn:Em; [|discriminate].
  intros [= <-]. exists merged. rewrite lookup_insert_eq.
  split; [reflexivity|]. split; [|split].
  - refine (mergeRanges_nonempty tz _ _ _ Em).
    intros E. apply app_eq_nil in E as [_ E]. discriminate.
  - exact (mergeRanges_kept_apart tz _ _ Em).
  - intros other Hne. apply lookup_insert_ne. congruence.
Qed.

(** The insertion, the removal and the clearing keep the store free of
    empty lists. *)
Lemma store_operations_keep_noEmptyEntry tz prev :
  noEmptyEntry prev ->
  (forall agentName startDate endDate,
     noEmptyEntry (vacationsAfter prev (addVacationRange tz agentName startDate endDate prev)))
  /\ (forall nm idx, noEmptyEntry (removeRange nm idx prev))
  /\ (forall nm, noEmptyEntry (clearAgent nm prev)).
Proof.
  intros Hinv. split; [|split].
  - intros agentName startDate endDate.
    destruct (addVacationRange tz agentName startDate endDate prev) as [| |next|] eqn:E;
      try exact Hinv.
    destruct (addVacationRange_kept_apart _ _ _ _ _ _ E) as (merged & Hm & Hne & _ & Hother).
    intros nm. simpl. destruct (decide (nm = agentName)) as [->|Hn].
    + rewrite Hm. congruence.
    + rewrite Hother by exact Hn. apply Hinv.
  - intros nm idx other. destruct (decide (other = nm)) as [->|Hn].
    + rewrite removeRange_lookup.
      destruct (delete idx (default [] (prev !! nm))); simpl; congruence.
    + rewrite removeRange_other by exact Hn. apply Hinv.
  - intros nm other. unfold clearAgent. destruct (decide (other = nm)) as [->|Hn].
    + rewrite lookup_delete_eq. discriminate.
    + rewrite lookup_delete_ne by congruence. apply Hinv.
Qed.

(** C1: on a host three hours east of Greenwich (Riyadh), inserting
    2024-06-05..2024-06-10 and then the adjacent 2024-06-11..2024-06-15
    for one agent leaves two stored ranges, not the single merged one. *)
Theorem C1_adjacent_ranges_left_apart_in_Riyadh :
  insertAll 180 "Ali" [("2024-06-05", "2024-06-10"); ("2024-06-11", "2024-06-15")] ∅ !! "Ali"
  = Some [mkRange "2024-06-05" "2024-06-10"; mkRange "2024-06-11" "2024-06-15"].
Proof. vm_compute. reflexivity. Qed.

(** C9: removing a valid position deletes that range and no other; the
    entry of the agent goes when its list becomes empty, the entries of
    other agents stay, and a store without empty lists stays so. *)
Theorem C9_removeRange_deletes_position nm idx prev ranges :
  prev !! nm = Some ranges ->
  (idx < length ranges)%nat ->
  removeRange nm idx prev !! nm =
    (if decide (length ranges = 1%nat) then None
     else Some (take idx ranges ++ drop (S idx) ranges))
  /\ removeRange nm idx prev !! nm <> Some []
  /\ (forall other, other <> nm -> removeRange nm idx prev !! other = prev !! other)
  /\ (noEmptyEntry prev -> noEmptyEntry (removeRange nm idx prev)).
Proof.
  intros Hlook Hidx.
  assert (Hdel : delete idx ranges = take idx ranges ++ drop (S idx) ranges)
    by apply delete_take_drop.
  assert (Hlen : length (delete idx ranges) = (length ranges - 1)%nat)
    by (apply length_delete; apply lookup_lt_is_Some_2, Hidx).
  assert (Hnm : removeRange nm idx prev !! nm =
                if decide (length ranges = 1%nat) then None
                else Some (take idx ranges ++ drop (S idx) ranges)).
  { rewrite removeRange_lookup, Hlook. simpl. rewrite <- Hdel.
    destruct (delete idx ranges) as [|x l] eqn:E; simpl in Hlen;
      case_decide; first [reflexivity | exfalso; lia]. }
  split; [exact Hnm|]. split; [|split].
  - rewrite removeRange_lookup.
    destruct (delete idx (default [] (prev !! nm))); simpl; congruence.
  - intros other Hne. apply removeRange_other, Hne.
  - intros Hinv other. destruct (decide (other = nm)) as [->|Hne].
    + rewrite removeRange_lookup.
      destruct (delete idx (default [] (prev !! nm))); simpl; congruence.
    + rewrite removeRange_other by exact Hne. apply Hinv.
Qed.

Lemma C9_removeRange_deletes_position_witness :
  removeRange "Ali" 0 {[ "Ali" := [mkRange "2024-06-05" "2024-06-10"] ]} !! "Ali" = None.
Proof.
  apply (C9_removeRange_deletes_position "Ali" 0
           {[ "Ali" := [mkRange "2024-06-05" "2024-06-10"] ]}
           [mkRange "2024-06-05" "2024-06-10"]).
  - reflexivity.
  - simpl. lia.
Defined.


(** ** Demand and requirement engine *)

Section DemandFacts.
Context {R : Type} `{JSNumber R}.

(** Every requirement is the formula applied to the demand of its bucket. *)
Lemma required48_lookup (f : Forecast R) day k :
  required48 f day !! k = requirement f <$> demand48 f day !! k.
Proof. unfold required48. apply list_lookup_fmap. Qed.

Lemma halves_lookup (g : R -> R) (l : list R) (h : nat) :
  (l ≫= (fun v => [g v; g v])) !! (2 * h)%nat = g <$> l !! h
  /\ (l ≫= (fun v => [g v; g v])) !! (2 * h + 1)%nat = g <$> l !! h.
Proof.
  revert h. induction l as [|x l IH]; intros h; [split; reflexivity|].
  destruct h as [|h]; [split; reflexivity|].
  replace (2 * S h)%nat with (S (S (2 * h))) by lia.
  replace (S (S (2 * h)) + 1)%nat with (S (S (2 * h + 1))) by lia.
  exact (IH h).
Qed.

Lemma loadPct48_lookup (f : Forecast R) day hourly h v :
  hourlyPctByDay f !! day = Some hourly ->
  hourly !! h = Some v ->
  loadPct48 f day !! (2 * h)%nat = Some (div v (num 2))
  /\ loadPct48 f day !! (2 * h + 1)%nat = Some (div v (num 2)).
Proof.
  intros Hday Hh. unfold loadPct48. rewrite Hday.
  change (default HOURLY_LOAD_PCT_DEFAULT (Some hourly)) with hourly.
  destruct (halves_lookup (fun v => div v (num 2)) hourly h) as [-> ->].
  rewrite Hh. split; reflexivity.
Qed.
End DemandFacts.

(** The arithmetic of the worked example, in binary64:
    ceil(650 * ((7.2 / 2) / 100) * 6 / max(0.1, 30 * 0.85)) is 6. *)
Lemma peak_requirement_binary64 :
  Math_ceil (div (mul (mul (num 650) (div (div (num 7.2) (num 2)) (num 100))) (num 6))
                 (Math_max (num 0.1) (mul (num 30) (num 0.85))))
  = (num 6 : float).
Proof. vm_compute. reflexivity. Qed.



(** *** The engine without rounding *)

Section ExactDemand.
Local Open Scope Q_scope.

Lemma foldl_Qplus_acc (a : Q) (l : list Q) :
  foldl Qplus a l == a + foldl Qplus 0 l.
Proof.
  revert a. induction l as [|x l IH]; intros a; simpl.
  - ring.
  - rewrite IH, (IH (0 + x)). ring.
Qed.

Lemma sumOf_cons (x : Q) (l : list Q) : sumOf (x :: l) == x + sumOf l.
Proof.
  unfold sumOf. simpl. rewrite foldl_Qplus_acc. ring.
Qed.

Lemma sumOf_halves (l : list Q) :
  sumOf (l ≫= (fun v => [div v (num 2); div v (num 2)])) == sumOf l.
Proof.
  induction l as [|x l IH]; [reflexivity|].
  change ((x :: l) ≫= (fun v => [div v (num 2); div v (num 2)]))
    with (x / 2 :: x / 2 :: (l ≫= (fun v => [div v (num 2); div v (num 2)]))).
  rewrite !sumOf_cons, IH. field.
Qed.

Lemma sumOf_scaled (b s : Q) (l : list Q) :
  ~ s == 0 ->
  sumOf ((fun p => mul b (div p s)) <$> l) == b * (sumOf l / s).
Proof.
  intros Hs. induction l as [|x l IH].
  - unfold sumOf. simpl. field. exact Hs.
  - rewrite fmap_cons, !sumOf_cons, IH. simpl. field. exact Hs.
Qed.


End ExactDemand.



(** ** Strings *)

Module StringFacts.
Import JSString.

Lemma append_cons c (s t : string) : String c s +:+ t = String c (s +:+ t).
Proof. reflexivity. Qed.

Lemma append_nil_l (t : string) : "" +:+ t = t.
Proof. reflexivity. Qed.

Lemma append_nil_r (s : string) : s +:+ "" = s.
Proof.
  induction s as [|c s IH]; [reflexivity|].
  rewrite append_cons, IH. reflexivity.
Qed.

Lemma append_assoc (s1 s2 s3 : string) : (s1 +:+ s2) +:+ s3 = s1 +:+ (s2 +:+ s3).
Proof.
  induction s1 as [|c s1 IH]; [reflexivity|].
  rewrite !append_cons, IH. reflexivity.
Qed.

Lemma charsAll_app P s1 s2 :
  charsAll P (s1 +:+ s2) = charsAll P s1 && charsAll P s2.
Proof.
  induction s1 as [|c s1 IH]; [reflexivity|].
  rewrite append_cons. simpl. rewrite IH. apply andb_assoc.
Qed.

Lemma charsAll_impl (P Q : ascii -> bool) s :
  (forall c, P c = true -> Q c = true) -> charsAll P s = true -> charsAll Q s = true.
Proof.
  intros HPQ. induction s as [|c s IH]; simpl; [reflexivity|].
  intros H. apply andb_prop in H as [Hc Hs]. rewrite (HPQ c Hc), (IH Hs). reflexivity.
Qed.

Lemma join_cons2 sep p q ps :
  join sep (p :: q :: ps) = p +:+ sep +:+ join sep (q :: ps).
Proof. reflexivity. Qed.

Lemma charsAll_join P sep pieces :
  charsAll P sep = true ->
  Forall (fun p => charsAll P p = true) pieces ->
  charsAll P (join sep pieces) = true.
Proof.
  intros Hsep Hall. induction Hall as [|p ps Hp Hps IH]; [reflexivity|].
  destruct ps as [|q ps]; [exact Hp|].
  rewrite join_cons2, !charsAll_app, Hp, Hsep, IH. reflexivity.
Qed.

(** *** Splitting what was joined *)

Lemma split_no_sep sep s :
  charsAll (notChar sep) s = true -> split sep s = [s].
Proof.
  induction s as [|c s IH]; simpl; [reflexivity|].
  intros H. apply andb_prop in H as [Hc Hs]. unfold notChar in Hc.
  apply negb_true_iff in Hc. rewrite Hc, (IH Hs). reflexivity.
Qed.

Lemma split_app sep s r :
  charsAll (notChar sep) s = true ->
  split sep (s +:+ String sep r) = s :: split sep r.
Proof.
  induction s as [|c s IH].
  - intros _. rewrite append_nil_l. simpl. rewrite Ascii.eqb_refl. reflexivity.
  - intros H. simpl in H. apply andb_prop in H as [Hc Hs]. unfold notChar in Hc.
    apply negb_true_iff in Hc. rewrite append_cons. simpl.
    rewrite Hc, (IH Hs). reflexivity.
Qed.

Lemma split_join sep pieces :
  pieces <> [] ->
  Forall (fun p => charsAll (notChar sep) p = true) pieces ->
  split sep (join (String sep "") pieces) = pieces.
Proof.
  intros Hne Hall. induction Hall as [|p ps Hp Hps IH]; [congruence|].
  destruct ps as [|q ps]; [apply split_no_sep, Hp|].
  rewrite join_cons2, append_cons, append_nil_l.
  rewrite split_app by exact Hp. f_equal. apply IH. discriminate.
Qed.

Lemma splitLines_cons c s :
  noBreak c = true ->
  splitLines (String c s) = consFirst c (splitLines s).
Proof.
  intros Hc. unfold noBreak, notChar in Hc. apply andb_prop in Hc as [Hlf Hcr].
  apply negb_true_iff in Hlf, Hcr.
  cbn [splitLines]. rewrite Hlf, Hcr. destruct s; reflexivity.
Qed.

Lemma splitLines_no_break s :
  charsAll noBreak s = true -> splitLines s = [s].
Proof.
  induction s as [|c s IH]; [reflexivity|].
  intros H. simpl in H. apply andb_prop in H as [Hc Hs].
  rewrite splitLines_cons by exact Hc. rewrite (IH Hs). reflexivity.
Qed.

Lemma splitLines_app s r :
  charsAll noBreak s = true ->
  splitLines (s +:+ String LF r) = s :: splitLines r.
Proof.
  induction s as [|c s IH].
  - intros _. reflexivity.
  - intros H. simpl in H. apply andb_prop in H as [Hc Hs].
    rewrite append_cons, splitLines_cons by exact Hc.
    rewrite (IH Hs). reflexivity.
Qed.

Lemma splitLines_join lines :
  lines <> [] ->
  Forall (fun l => charsAll noBreak l = true) lines ->
  splitLines (join (String LF "") lines) = lines.
Proof.
  intros Hne Hall. induction Hall as [|p ps Hp Hps IH]; [congruence|].
  destruct ps as [|q ps]; [apply splitLines_no_break, Hp|].
  rewrite join_cons2, append_cons, append_nil_l.
  rewrite splitLines_app by exact Hp. f_equal. apply IH. discriminate.
Qed.

(** *** Trimming *)

Lemma rev_app_snoc s c acc :
  String.rev_app (s +:+ String c "") acc = String c (String.rev_app s acc).
Proof.
  revert acc. induction s as [|x s IH]; intros acc; [reflexivity|].
  rewrite append_cons. simpl. apply IH.
Qed.

Lemma rev_app_rev_app s a b :
  String.rev_app (String.rev_app s a) b = String.rev_app a (s +:+ b).
Proof.
  revert a. induction s as [|x s IH]; intros a; [reflexivity|].
  simpl. rewrite IH. reflexivity.
Qed.

Lemma string_snoc c r :
  exists s' c', String c r = s' +:+ String c' "" /\ lastChar (String c r) = Some c'.
Proof.
  revert c. induction r as [|x r IH]; intros c.
  - exists "", c. split; reflexivity.
  - destruct (IH x) as (s' & c' & Heq & Hlast).
    exists (String c s'), c'. rewrite append_cons, <- Heq. split; [reflexivity|].
    exact Hlast.
Qed.

(** A string that neither starts nor ends with a blank is its own trim. *)
Lemma trim_ends c r c' :
  isSpace c = false ->
  lastChar (String c r) = Some c' ->
  isSpace c' = false ->
  trim (String c r) = String c r.
Proof.
  intros Hc Hlast Hc'. unfold trim.
  assert (Hstart : trimStart (String c r) = String c r) by (simpl; rewrite Hc; reflexivity).
  rewrite Hstart.
  destruct (string_snoc c r) as (s' & c'' & Heq & Hlast').
  rewrite Hlast in Hlast'. injection Hlast' as <-.
  rewrite Heq. unfold trimEnd, String.rev.
  rewrite rev_app_snoc. simpl. rewrite Hc'.
  change (String.rev_app (String c' (String.rev_app s' "")) "")
    with (String.rev_app (String.rev_app s' "") (String c' "")).
  rewrite rev_app_rev_app. reflexivity.
Qed.

Lemma lastChar_app s1 s2 :
  lastChar (s1 +:+ s2) =
  match lastChar s2 with Some c => Some c | None => lastChar s1 end.
Proof.
  induction s1 as [|x s1 IH].
  - rewrite append_nil_l. destruct (lastChar s2); reflexivity.
  - rewrite append_cons.
    destruct s1 as [|y s1].
    + rewrite append_nil_l. destruct s2 as [|z s2]; [reflexivity|].
      change (lastChar (String x (String z s2))) with (lastChar (String z s2)).
      destruct (string_snoc z s2) as (_ & c' & _ & ->). reflexivity.
    + rewrite append_cons in *.
      change (lastChar (String x (String y (s1 +:+ s2))))
        with (lastChar (String y (s1 +:+ s2))).
      rewrite IH. reflexivity.
Qed.

Lemma charsAll_lastChar P s c :
  charsAll P s = true -> lastChar s = Some c -> P c = true.
Proof.
  induction s as [|x s IH]; [discriminate|].
  intros H Hlast. simpl in H. apply andb_prop in H as [Hx Hs].
  destruct s as [|y s]; [injection Hlast as <-; exact Hx|].
  apply IH; assumption.
Qed.

Lemma plainChar_not_space c : plainChar c = true -> isSpace c = false.
Proof. unfold plainChar. intros H. apply andb_prop in H as [_ H]. apply negb_true_iff, H. Qed.

Lemma plainChar_fieldChar c : plainChar c = true -> fieldChar c = true.
Proof. unfold plainChar. intros H. apply andb_prop in H as [H _]. exact H. Qed.

Lemma fieldChar_noBreak c : fieldChar c = true -> noBreak c = true.
Proof. unfold fieldChar. intros H. apply andb_prop in H as [_ H]. exact H. Qed.

Lemma fieldChar_notComma c : fieldChar c = true -> notChar "," c = true.
Proof. unfold fieldChar. intros H. apply andb_prop in H as [H _]. exact H. Qed.

Lemma trim_plain s : charsAll plainChar s = true -> trim s = s.
Proof.
  destruct s as [|c r]; [reflexivity|]. intros H.
  destruct (string_snoc c r) as (_ & c' & _ & Hlast).
  apply (trim_ends c r c').
  - simpl in H. apply andb_prop in H as [Hc _]. apply plainChar_not_space, Hc.
  - exact Hlast.
  - apply plainChar_not_space. exact (charsAll_lastChar _ _ _ H Hlast).
Qed.

(** *** Decimal numerals *)

Lemma digit_inv c d :
  JSDate.digit c = Some d ->
  0 <= d <= 9 /\ c = ascii_of_N (Z.to_N (48 + d)).
Proof.
  unfold JSDate.digit. intros H.
  destruct ((48 <=? Z.of_N (N_of_ascii c)) && (Z.of_N (N_of_ascii c) <=? 57)) eqn:E;
    [|discriminate].
  injection H as <-. apply andb_prop in E as [Hlo Hhi].
  apply Z.leb_le in Hlo, Hhi. split; [lia|].
  replace (48 + (Z.of_N (N_of_ascii c) - 48)) with (Z.of_N (N_of_ascii c)) by lia.
  rewrite N2Z.id, ascii_N_embedding. reflexivity.
Qed.

Lemma digit_facts c d :
  JSDate.digit c = Some d ->
  plainChar c = true /\ 0 <= d <= 9
  /\ forall r, parseInt (String c r) = Some (digitsToZ (d :: leadingDigits r)).
Proof.
  intros H. destruct (digit_inv c d H) as (Hd & ->).
  assert (Hc : d = 0 \/ d = 1 \/ d = 2 \/ d = 3 \/ d = 4 \/ d = 5
               \/ d = 6 \/ d = 7 \/ d = 8 \/ d = 9) by lia.
  split; [|split; [exact Hd|]];
    repeat (destruct Hc as [->|Hc]; [reflexivity|]); subst d; reflexivity.
Qed.

Lemma pretty_N_char_digit x :
  (x < 10)%N -> JSDate.digit (pretty_N_char x) = Some (Z.of_N x).
Proof.
  intros Hx.
  assert (Hc : (x = 0 \/ x = 1 \/ x = 2 \/ x = 3 \/ x = 4 \/ x = 5
                \/ x = 6 \/ x = 7 \/ x = 8 \/ x = 9)%N) by lia.
  repeat (destruct Hc as [->|Hc]; [reflexivity|]). subst x. reflexivity.
Qed.

Lemma digitsToZ_from (a : Z) (ds : list Z) :
  foldl (fun acc d => acc * 10 + d) a ds = a * 10 ^ Z.of_nat (length ds) + digitsToZ ds.
Proof.
  unfold digitsToZ. revert a. induction ds as [|d ds IH]; intros a.
  - simpl. lia.
  - cbn [foldl length]. rewrite (IH (a * 10 + d)), (IH (0 * 10 + d)).
    rewrite Nat2Z.inj_succ, Z.pow_succ_r by lia. ring.
Qed.

Lemma digitsToZ_cons d ds :
  digitsToZ (d :: ds) = d * 10 ^ Z.of_nat (length ds) + digitsToZ ds.
Proof.
  unfold digitsToZ at 1. cbn [foldl]. rewrite digitsToZ_from. ring.
Qed.

(** The digits printed in front of [s] are those of [x]. *)
Lemma pretty_N_go_value x s :
  charsAll isDigit s = true ->
  charsAll isDigit (pretty_N_go x s) = true
  /\ (String.length s <= String.length (pretty_N_go x s))%nat
  /\ digitsToZ (leadingDigits (pretty_N_go x s)) =
     Z.of_N x * 10 ^ Z.of_nat (length (leadingDigits s)) + digitsToZ (leadingDigits s).
Proof.
  revert s. induction (N.lt_wf_0 x) as [x _ IH]. intros s Hs.
  destruct (decide (x = 0%N)) as [->|Hx].
  - rewrite pretty_N_go_0. split; [exact Hs|]. split; [lia|]. simpl. lia.
  - rewrite pretty_N_go_step by lia.
    assert (Hd : JSDate.digit (pretty_N_char (x `mod` 10)) = Some (Z.of_N (x `mod` 10)))
      by (apply pretty_N_char_digit, N.mod_lt; lia).
    destruct (IH (x `div` 10)%N (N.div_lt x 10 ltac:(lia) eq_refl)
                (String (pretty_N_char (x `mod` 10)) s)) as (H1 & H2 & H3).
    { simpl. unfold isDigit at 1. rewrite Hd. exact Hs. }
    split; [exact H1|]. split; [simpl in H2; lia|].
    rewrite H3. cbn [leadingDigits]. rewrite Hd. cbn [length].
    rewrite digitsToZ_cons, Nat2Z.inj_succ, Z.pow_succ_r by lia.
    rewrite N2Z.inj_div, N2Z.inj_mod. change (Z.of_N 10) with 10.
    pose proof (Z.div_mod (Z.of_N x) 10 ltac:(lia)) as Hdm.
    set (q := Z.of_N x `div` 10) in *. set (m := Z.of_N x `mod` 10) in *.
    clearbody q m. rewrite Hdm. ring.
Qed.

Lemma charsAll_digit_plain s : charsAll isDigit s = true -> charsAll plainChar s = true.
Proof.
  apply charsAll_impl. intros c Hc. unfold isDigit in Hc.
  destruct (JSDate.digit c) as [d|] eqn:E; [|discriminate].
  apply (digit_facts c d E).
Qed.

(** A non-negative integer prints as plain characters and reads back. *)
Lemma pretty_nonneg n :
  0 <= n ->
  charsAll plainChar (pretty n) = true
  /\ pretty n <> ""
  /\ parseInt (pretty n) = Some n.
Proof.
  intros Hn. destruct n as [|p|p]; [vm_compute; repeat split; discriminate| |lia].
  change (pretty (Z.pos p)) with (pretty_N_go (N.pos p) "").
  destruct (pretty_N_go_value (N.pos p) "" eq_refl) as (H1 & H2 & H3).
  rewrite pretty_N_go_step in * by lia.
  set (s0 := String (pretty_N_char (N.pos p `mod` 10)) "") in *.
  assert (Hlen : (1 <= String.length (pretty_N_go (N.pos p `div` 10) s0))%nat).
  { destruct (pretty_N_go_value (N.pos p `div` 10) s0) as (_ & Hl & _); [|exact Hl].
    unfold s0. simpl. unfold isDigit.
    rewrite pretty_N_char_digit by (apply N.mod_lt; lia). reflexivity. }
  destruct (pretty_N_go (N.pos p `div` 10) s0) as [|c r] eqn:E; [simpl in Hlen; lia|].
  split; [apply charsAll_digit_plain, H1|]. split; [discriminate|].
  simpl in H1. apply andb_prop in H1 as [Hc _]. unfold isDigit in Hc.
  destruct (JSDate.digit c) as [d|] eqn:Ed; [|discriminate].
  destruct (digit_facts c d Ed) as (_ & _ & Hparse). rewrite Hparse.
  f_equal. cbn [leadingDigits] in H3. rewrite Ed in H3. rewrite H3.
  cbn [leadingDigits length]. change (digitsToZ []) with 0.
  change (10 ^ Z.of_nat 0) with 1. lia.
Qed.

End StringFacts.


(** ** CSV export and import *)

Section RoundTrip.
Import JSString StringFacts.

Lemma hhmm_every_minute : forallb hhmmRoundTrips (seqZ 0 1440) = true.
Proof. vm_compute. reflexivity. Qed.

(** A minute of the day prints as [HH:MM] in plain characters and reads back. *)
Lemma toMin_toHHMM m :
  0 <= m < 1440 ->
  toMin (toHHMM m) = Minute m /\ charsAll plainChar (toHHMM m) = true.
Proof.
  intros Hm.
  assert (Hin : In m (seqZ 0 1440)) by (apply list_elem_of_In, elem_of_seqZ; lia).
  pose proof (proj1 (forallb_forall _ _) hhmm_every_minute m Hin) as H.
  unfold hhmmRoundTrips in H.
  destruct (toMin (toHHMM m)) as [| |m']; try discriminate.
  apply andb_prop in H as [Heq Hplain]. apply Z.eqb_eq in Heq. subst m'.
  split; [reflexivity | exact Hplain].
Qed.

Lemma weekdayName_plain d : charsAll plainChar (weekdayName d) = true.
Proof. destruct d; reflexivity. Qed.

Lemma dayOfName_weekdayName d : dayOfName (weekdayName d) = Some d.
Proof. destruct d; reflexivity. Qed.

Lemma exportRow_fields roster a d :
  exportRow roster a d =
  join "," (exportFields (name a) d (blockOrDefault roster (name a) d)).
Proof. reflexivity. Qed.

(** The fields of an exported row are plain, the name apart. *)
Lemma exportFields_plain nm d blk :
  inRange blk ->
  Forall (fun p => charsAll plainChar p = true) (tail (exportFields nm d blk)).
Proof.
  intros (Hs & He & Hb & Hn). unfold exportFields. cbn [tail].
  repeat apply Forall_cons_2; try apply Forall_nil_2.
  - apply weekdayName_plain.
  - destruct (active blk); reflexivity.
  - apply toMin_toHHMM, Hs.
  - apply toMin_toHHMM, He.
  - destruct (breakStartMin blk) as [b|]; [|reflexivity].
    apply toMin_toHHMM, Hb. reflexivity.
  - apply pretty_nonneg, Hn.
Qed.

Lemma exportFields_split nm d blk :
  wellFormedName nm -> inRange blk ->
  trim <$> split "," (join "," (exportFields nm d blk)) = exportFields nm d blk
  /\ charsAll noBreak (join "," (exportFields nm d blk)) = true.
Proof.
  intros (Hne & Hchars & Htrim) Hblk.
  pose proof (exportFields_plain nm d blk Hblk) as Hplain.
  assert (Hfield : Forall (fun p => charsAll fieldChar p = true) (exportFields nm d blk)).
  { change (exportFields nm d blk) with (nm :: tail (exportFields nm d blk)).
    apply Forall_cons_2; [exact Hchars|].
    eapply Forall_impl; [exact Hplain|]. intros p Hp.
    exact (charsAll_impl _ _ _ plainChar_fieldChar Hp). }
  split.
  - rewrite split_join.
    + change (exportFields nm d blk) with (nm :: tail (exportFields nm d blk)).
      rewrite fmap_cons, Htrim. f_equal.
      induction Hplain as [|p ps Hp _ IH]; [reflexivity|].
      rewrite fmap_cons, (trim_plain p Hp), IH. reflexivity.
    + discriminate.
    + eapply Forall_impl; [exact Hfield|]. intros p Hp.
      exact (charsAll_impl _ _ _ fieldChar_notComma Hp).
  - apply charsAll_join; [reflexivity|].
    eapply Forall_impl; [exact Hfield|]. intros p Hp.
    exact (charsAll_impl _ _ _ fieldChar_noBreak Hp).
Qed.

(** Reading the seven fields back by the names of the header. *)
Lemma rowObject_fields f1 f2 f3 f4 f5 f6 f7 :
  let r := rowObject csvHeader [f1; f2; f3; f4; f5; f6; f7] in
  field r "agent" = f1 /\ field r "day" = f2 /\ field r "active" = f3
  /\ field r "start" = f4 /\ field r "end" = f5
  /\ field r "break_start" = f6 /\ field r "break_minutes" = f7.
Proof. vm_compute. repeat split. Qed.
Lemma blockOfRow_exported r blk :
  inRange blk ->
  field r "active" = (if active blk then "1" else "0") ->
  field r "start" = toHHMM (startMin blk) ->
  field r "end" = toHHMM (endMin blk) ->
  field r "break_start" = match breakStartMin blk with Some b => toHHMM b | None => "" end ->
  field r "break_minutes" = pretty (breakMinsOr0 blk) ->
  blockOfRow r = Some (reimported blk).
Proof.
  intros (Hs & He & Hb & Hn) Hact Hstart Hend Hbs Hbm.
  unfold blockOfRow. rewrite Hact, Hstart, Hend, Hbs, Hbm.
  destruct (pretty_nonneg (breakMinsOr0 blk) Hn) as (_ & Hne & Hparse).
  apply String.eqb_neq in Hne. rewrite Hne, Hparse.
  rewrite (proj1 (toMin_toHHMM _ Hs)), (proj1 (toMin_toHHMM _ He)).
  cbn [default from_option id mbind option_bind].
  assert (Hmax : Z.max 0 (breakMinsOr0 blk) = breakMinsOr0 blk) by lia.
  rewrite Hmax. unfold reimported.
  assert (Hactive : ((if active blk then "1" else "0") =? "1")%string
                    || (trim (toLowerCase (if active blk then "1" else "0")) =? "true")%string
                    = active blk) by (destruct (active blk); reflexivity).
  rewrite Hactive.
  destruct (0 <? breakMinsOr0 blk); [|reflexivity].
  destruct (breakStartMin blk) as [b|] eqn:Eb; [|reflexivity].
  rewrite (proj1 (toMin_toHHMM b (Hb b eq_refl))). reflexivity.
Qed.

(** Reading one exported row writes the re-imported block at its place. *)
Lemma importRow_exported roster a d ags ros :
  wellFormedName (name a) ->
  inRange (blockOrDefault roster (name a) d) ->
  importRow (Some (ags, ros))
    (rowObject csvHeader (trim <$> split "," (exportRow roster a d)))
  = Some (withAgent (name a) ags,
          writeBlock (name a) d (reimported (blockOrDefault roster (name a) d)) ros).
Proof.
  intros Hnm Hblk. rewrite exportRow_fields.
  rewrite (proj1 (exportFields_split _ d _ Hnm Hblk)).
  set (blk := blockOrDefault roster (name a) d) in *.
  unfold exportFields.
  match goal with |- context [rowObject csvHeader [?f1; ?f2; ?f3; ?f4; ?f5; ?f6; ?f7]] =>
    destruct (rowObject_fields f1 f2 f3 f4 f5 f6 f7) as (Ha & Hd & Hact & Hs & He & Hbs & Hbm);
    set (r := rowObject csvHeader [f1; f2; f3; f4; f5; f6; f7]) in *
  end.
  unfold importRow. cbn [mbind option_bind]. rewrite Ha, Hd, dayOfName_weekdayName.
  destruct Hnm as (Hne & _ & _). apply String.eqb_neq in Hne. rewrite Hne.
  rewrite (blockOfRow_exported r blk Hblk Hact Hs He Hbs Hbm).
  reflexivity.
Qed.

Lemma writeBlock_lookup nm day blk (r : Roster) nm' day' :
  writeBlock nm day blk r !! nm' ≫= (.!! day') =
  if decide (nm' = nm /\ day' = day) then Some blk else r !! nm' ≫= (.!! day').
Proof.
  unfold writeBlock. destruct (decide (nm' = nm)) as [->|Hnm].
  - rewrite lookup_insert_eq. cbn [mbind option_bind].
    destruct (decide (day' = day)) as [->|Hday].
    + rewrite lookup_insert_eq. rewrite decide_True by auto. reflexivity.
    + rewrite lookup_insert_ne by congruence.
      rewrite decide_False by (intros [_ ?]; congruence).
      destruct (r !! nm); reflexivity.
  - rewrite lookup_insert_ne by congruence.
    rewrite decide_False by (intros [? _]; congruence). reflexivity.
Qed.

(** Reading the rows of a list of pairs, one after the other. *)
Lemma import_exported_pairs roster pairs ags ros :
  Forall (fun p => wellFormedName (name p.1)
                   /\ inRange (blockOrDefault roster (name p.1) p.2)) pairs ->
  exists ags' ros',
    foldl importRow (Some (ags, ros))
      ((fun p => rowObject csvHeader (trim <$> split "," (exportRow roster p.1 p.2)))
         <$> pairs) = Some (ags', ros')
    /\ forall p, p ∈ pairs ->
         ros' !! name p.1 ≫= (.!! p.2)
         = Some (reimported (blockOrDefault roster (name p.1) p.2)).
Proof.
  induction pairs as [|[a d] pairs IH] using rev_ind; intros Hall.
  - exists ags, ros. split; [reflexivity|]. intros p Hp. inversion Hp.
  - apply Forall_app in Hall as [Hall Hlast].
    apply Forall_cons_1 in Hlast as [[Hnm Hblk] _]. simpl in Hnm, Hblk.
    destruct (IH Hall) as (ags1 & ros1 & Hfold & Hinv).
    rewrite fmap_app, foldl_app, Hfold. cbn [fmap list_fmap foldl fst snd].
    rewrite (importRow_exported roster a d ags1 ros1 Hnm Hblk).
    eexists _, _. split; [reflexivity|].
    intros [a' d'] Hp. cbn [fst snd]. rewrite writeBlock_lookup.
    destruct (decide (name a' = name a /\ d' = d)) as [[-> ->]|Hne]; [reflexivity|].
    apply elem_of_app in Hp as [Hp|Hp]; [exact (Hinv (a', d') Hp)|].
    apply list_elem_of_singleton in Hp. injection Hp as -> ->. tauto.
Qed.
Lemma lastChar_app_r s1 s2 c : lastChar s2 = Some c -> lastChar (s1 +:+ s2) = Some c.
Proof. intros H. rewrite lastChar_app, H. reflexivity. Qed.

Lemma endsUnblanked_join sep lines :
  lines <> [] -> Forall endsUnblanked lines -> endsUnblanked (join sep lines).
Proof.
  intros Hne Hall. induction Hall as [|p ps Hp Hps IH]; [congruence|].
  destruct ps as [|q ps]; [exact Hp|].
  destruct IH as (c & Hc & Hsp); [discriminate|].
  exists c. split; [|exact Hsp].
  rewrite join_cons2. do 2 apply lastChar_app_r. exact Hc.
Qed.

Lemma exportRow_endsUnblanked roster a d :
  inRange (blockOrDefault roster (name a) d) -> endsUnblanked (exportRow roster a d).
Proof.
  intros (_ & _ & _ & Hn). rewrite exportRow_fields. unfold exportFields.
  destruct (pretty_nonneg _ Hn) as (Hplain & Hne & _).
  destruct (pretty (breakMinsOr0 (blockOrDefault roster (name a) d))) as [|c r] eqn:E;
    [congruence|].
  destruct (string_snoc c r) as (_ & c' & _ & Hlast).
  exists c'. split.
  - repeat (rewrite join_cons2; do 2 apply lastChar_app_r). exact Hlast.
  - apply plainChar_not_space. exact (charsAll_lastChar _ _ _ Hplain Hlast).
Qed.

Lemma exportCSV_rows roster agents :
  exportCSV roster agents =
  join (String LF "")
    (join "," csvHeader :: ((fun p => exportRow roster p.1 p.2) <$> exportedPairs agents)).
Proof.
  unfold exportCSV, exportedPairs. do 2 f_equal.
  induction agents as [|a agents IH]; [reflexivity|].
  cbn [mbind list_bind]. rewrite fmap_app, IH. f_equal.
Qed.

(** What [parseCSV] makes of an export. *)
Lemma parseCSV_exportCSV roster agents :
  Forall (fun p => wellFormedName (name p.1)
                   /\ inRange (blockOrDefault roster (name p.1) p.2))
         (exportedPairs agents) ->
  parseCSV (exportCSV roster agents) =
  (csvHeader,
   (fun p => rowObject csvHeader (trim <$> split "," (exportRow roster p.1 p.2)))
     <$> exportedPairs agents).
Proof.
  intros Hall. rewrite exportCSV_rows.
  set (rows := (fun p => exportRow roster p.1 p.2) <$> exportedPairs agents).
  assert (Hbreak : Forall (fun l => charsAll noBreak l = true) (join "," csvHeader :: rows)).
  { apply Forall_cons_2; [reflexivity|]. unfold rows. apply Forall_fmap.
    eapply Forall_impl; [exact Hall|]. intros [a d] [Hnm Hblk]. simpl in *.
    rewrite exportRow_fields. apply exportFields_split; assumption. }
  assert (Hends : Forall endsUnblanked (join "," csvHeader :: rows)).
  { apply Forall_cons_2; [exists "s"%char; split; reflexivity|].
    unfold rows. apply Forall_fmap.
    eapply Forall_impl; [exact Hall|]. intros [a d] [_ Hblk]. simpl in *.
    apply exportRow_endsUnblanked, Hblk. }
  assert (Htrim : trim (join (String LF "") (join "," csvHeader :: rows))
                  = join (String LF "") (join "," csvHeader :: rows)).
  { assert (Hne : join "," csvHeader :: rows <> []) by discriminate.
    destruct (endsUnblanked_join (String LF "") _ Hne Hends) as (c' & Hlast & Hsp).
    assert (Hhead : exists r, join (String LF "") (join "," csvHeader :: rows)
                              = String "a" r).
    { destruct rows; [eexists; reflexivity|]. rewrite join_cons2. eexists. reflexivity. }
    destruct Hhead as (r & Hr). rewrite Hr in *.
    apply (trim_ends _ _ c'); [reflexivity | exact Hlast | exact Hsp]. }
  unfold parseCSV. rewrite Htrim.
  rewrite splitLines_join by (discriminate || exact Hbreak).
  cbn [head tail default from_option id].
  assert (Hheaders : trim <$> split "," (join "," csvHeader) = csvHeader)
    by (vm_compute; reflexivity).
  rewrite Hheaders. unfold rows. rewrite <- list_fmap_compose. reflexivity.
Qed.

Lemma exportedPairs_elem a d agents : a ∈ agents -> (a, d) ∈ exportedPairs agents.
Proof.
  intros Ha. unfold exportedPairs. apply list_elem_of_bind. exists a.
  split; [|exact Ha]. apply list_elem_of_fmap. exists d. split; [reflexivity|].
  destruct d; unfold WEEKDAYS; set_solver.
Qed.

Lemma exportedPairs_inv p agents : p ∈ exportedPairs agents -> p.1 ∈ agents.
Proof.
  unfold exportedPairs. intros Hp. apply list_elem_of_bind in Hp as (a & Hp & Ha).
  apply list_elem_of_fmap in Hp as (d & -> & _). exact Ha.
Qed.
End RoundTrip.



